(** * A model of repoforge: src/generator.py and src/repoforge/repoforge.py

    Both modules build a prompt out of a directory: a tree outline
    ([create_directory_tree]), a per-directory list of file summaries
    ([create_repo_summary], built on [os.walk]), and a formatter
    ([format_prompt_xml]).  [summarize_text_file] and [format_prompt_xml]
    have the same text in both modules and are modelled once.

    Modelling choices:
    - a Python [str] is a Rocq [string] of bytes (its UTF-8 encoding);
      Python orders strings by code point, which on UTF-8 encodings is the
      byte-wise order used by [String.leb];
    - [str.lower] is modelled on the ASCII range (names and extensions are
      taken to be ASCII where they matter); [str.strip] removes all the
      characters Python counts as whitespace;
    - the filesystem below the repository root is a tree of [node]s whose
      children are listed in the order the filesystem iterates them;
    - I/O goes through a writer/error monad [M] that logs every directory
      listing, [os.path.isdir] test, size query, file open and line read,
      and carries Python exceptions as [Err]. *)

From Stdlib Require Import String Ascii List ZArith Bool Lia Sorting.Sorted.
From Stdlib Require Import FunctionalExtensionality.
Import ListNotations.
Open Scope string_scope.
Set Warnings "-register-all".

(** ** Python string helpers *)

Definition nl : string := String "010" EmptyString.

(** ["sep".join(parts)] *)
Definition py_join (sep : string) (parts : list string) : string :=
  String.concat sep parts.

(** [s.split("\n")]: Python keeps empty pieces, so [""] splits into [[""]]. *)
Fixpoint py_split_nl (s : string) : list string :=
  match s with
  | EmptyString => [EmptyString]
  | String c rest =>
      if Ascii.eqb c "010" then EmptyString :: py_split_nl rest
      else match py_split_nl rest with
           | [] => [String c EmptyString]
           | l :: ls => String c l :: ls
           end
  end.

(** [s.rstrip('\n')]: removes every trailing newline. *)
Fixpoint rstrip_nl (s : string) : string :=
  match s with
  | EmptyString => EmptyString
  | String c rest =>
      let r := rstrip_nl rest in
      if Ascii.eqb c "010" && String.eqb r EmptyString then EmptyString
      else String c r
  end.

(** [str.strip()] with no argument removes, at both ends, the characters
    for which [str.isspace] holds: \t \n \v \f \r, the separators
    \x1c .. \x1f, the space, U+0085, U+00A0, U+1680, U+2000 .. U+200A,
    U+2028, U+2029, U+202F, U+205F and U+3000.  On the UTF-8 encoding
    these are the one-byte characters [ws1], the two-byte ones [ws2] and
    the three-byte ones [ws3]. *)
Definition ws1 (a : ascii) : bool :=
  let n := nat_of_ascii a in
  (n =? 32)%nat || ((9 <=? n)%nat && (n <=? 13)%nat)
  || ((28 <=? n)%nat && (n <=? 31)%nat).

Definition ws2 (a b : ascii) : bool :=
  let n := nat_of_ascii b in
  (nat_of_ascii a =? 194)%nat && ((n =? 133)%nat || (n =? 160)%nat).

Definition ws3 (a b c : ascii) : bool :=
  let x := nat_of_ascii a in
  let y := nat_of_ascii b in
  let z := nat_of_ascii c in
  ((x =? 225)%nat && (y =? 154)%nat && (z =? 128)%nat)
  || ((x =? 226)%nat && (y =? 128)%nat
      && (((128 <=? z)%nat && (z <=? 138)%nat)
          || (z =? 168)%nat || (z =? 169)%nat || (z =? 175)%nat))
  || ((x =? 226)%nat && (y =? 129)%nat && (z =? 159)%nat)
  || ((x =? 227)%nat && (y =? 128)%nat && (z =? 128)%nat).

(** [s.lstrip()]: drops whitespace characters at the start. *)
Fixpoint lstrip_ws (s : string) : string :=
  match s with
  | EmptyString => EmptyString
  | String a r1 =>
      if ws1 a then lstrip_ws r1
      else match r1 with
           | EmptyString => s
           | String b r2 =>
               if ws2 a b then lstrip_ws r2
               else match r2 with
                    | EmptyString => s
                    | String c r3 => if ws3 a b c then lstrip_ws r3 else s
                    end
           end
  end.

(** [s] is made of whitespace characters only. *)
Definition all_ws (s : string) : bool := String.eqb (lstrip_ws s) EmptyString.

(** [s.rstrip()]: cuts [s] at the first position from which only
    whitespace follows.  A position inside a multi-byte character is
    followed by a continuation byte, which starts no whitespace character,
    so the cut falls between characters. *)
Fixpoint rstrip_ws (s : string) : string :=
  match s with
  | EmptyString => EmptyString
  | String c rest => if all_ws s then EmptyString else String c (rstrip_ws rest)
  end.

(** [s.strip()] *)
Definition py_strip (s : string) : string := rstrip_ws (lstrip_ws s).

(** The UTF-8 encoding of a code point below U+10000. *)
Definition utf8_encode (cp : Z) : string :=
  let byte k := ascii_of_N (Z.to_N k) in
  if (cp <? 128)%Z then String (byte cp) EmptyString
  else if (cp <? 2048)%Z then
    String (byte (192 + cp / 64)%Z) (String (byte (128 + cp mod 64)%Z) EmptyString)
  else
    String (byte (224 + cp / 4096)%Z)
      (String (byte (128 + (cp / 64) mod 64)%Z)
         (String (byte (128 + cp mod 64)%Z) EmptyString)).

(** The UTF-8 encoding of a sequence of code points. *)
Definition utf8_of (cps : list Z) : string :=
  fold_right (fun cp s => utf8_encode cp ++ s) EmptyString cps.

(** The code points for which [str.isspace] holds (all lie below
    U+10000). *)
Definition PY_WHITESPACE : list Z :=
  [9; 10; 11; 12; 13; 28; 29; 30; 31; 32; 133; 160; 5760;
   8192; 8193; 8194; 8195; 8196; 8197; 8198; 8199; 8200; 8201; 8202;
   8232; 8233; 8239; 8287; 12288]%Z.

(** [str.lower] on ASCII letters. *)
Definition lower_char (c : ascii) : ascii :=
  let n := nat_of_ascii c in
  if (65 <=? n)%nat && (n <=? 90)%nat then ascii_of_nat (n + 32) else c.

Fixpoint py_lower (s : string) : string :=
  match s with
  | EmptyString => EmptyString
  | String c rest => String (lower_char c) (py_lower rest)
  end.

(** [os.path.splitext(name)[1]] for a name without a separator: the suffix
    starting at the last dot, provided some character before that dot is
    not a dot; otherwise [""]. *)
Fixpoint splitext_aux (seen_nondot : bool) (s : string) : string :=
  match s with
  | EmptyString => EmptyString
  | String c rest =>
      let r := splitext_aux (seen_nondot || negb (Ascii.eqb c ".")) rest in
      if Ascii.eqb c "." && seen_nondot && String.eqb r EmptyString then s
      else r
  end.

Definition splitext_ext (name : string) : string := splitext_aux false name.

(** [f"{n}"] for an integer. *)
Fixpoint digits_of_nat (fuel n : nat) (acc : string) : string :=
  match fuel with
  | O => acc
  | S fuel' =>
      let acc' := String (ascii_of_nat (48 + n mod 10)) acc in
      if (n <? 10)%nat then acc' else digits_of_nat fuel' (n / 10) acc'
  end.

Definition show_Z (z : Z) : string :=
  match z with
  | Z0 => "0"
  | Zpos p => digits_of_nat (Pos.to_nat p) (Pos.to_nat p) EmptyString
  | Zneg p => "-" ++ digits_of_nat (Pos.to_nat p) (Pos.to_nat p) EmptyString
  end.

(** Whether a string contains no character [c]. *)
Fixpoint no_char (c : ascii) (s : string) : bool :=
  match s with
  | EmptyString => true
  | String c' rest => negb (Ascii.eqb c' c) && no_char c rest
  end.

(** [os.path.join(a, b)] (posixpath): an absolute [b] replaces [a];
    otherwise a separator goes between them unless [a] is empty or
    already ends with one. *)
Fixpoint ends_with_slash (s : string) : bool :=
  match s with
  | EmptyString => false
  | String c EmptyString => Ascii.eqb c "/"
  | String _ rest => ends_with_slash rest
  end.

Definition path_join (a b : string) : string :=
  if String.prefix "/" b then b
  else if String.eqb a EmptyString || ends_with_slash a then a ++ b
  else a ++ "/" ++ b.

(** [repr] of a string, as [str()] of an [OSError] shows its file name:
    single quotes, unless the string holds a single quote and no double
    quote; the backslash, the quote in use, \t \n \r, the other control
    characters and U+0080 .. U+00A0, U+00AD escaped.  Other non-ASCII
    characters are kept as they are (Python writes the rarer non-printable
    ones as \u escapes). *)
Definition hex_digit (n : nat) : ascii :=
  ascii_of_nat (if (n <? 10)%nat then 48 + n else 87 + n).

Definition hex_escape (c : ascii) : string :=
  let n := nat_of_ascii c in
  String "\" (String "x" (String (hex_digit (n / 16))
                            (String (hex_digit (n mod 16)) EmptyString))).

Fixpoint repr_body (q : ascii) (s : string) : string :=
  match s with
  | EmptyString => EmptyString
  | String c rest =>
      let n := nat_of_ascii c in
      if Ascii.eqb c "\" then String "\" (String "\" (repr_body q rest))
      else if Ascii.eqb c q then String "\" (String q (repr_body q rest))
      else if (n =? 9)%nat then String "\" (String "t" (repr_body q rest))
      else if (n =? 10)%nat then String "\" (String "n" (repr_body q rest))
      else if (n =? 13)%nat then String "\" (String "r" (repr_body q rest))
      else if (n <? 32)%nat || (n =? 127)%nat then hex_escape c ++ repr_body q rest
      else if (n =? 194)%nat then
        match rest with
        | String d rest' =>
            let m := nat_of_ascii d in
            if ((128 <=? m)%nat && (m <=? 160)%nat) || (m =? 173)%nat
            then hex_escape d ++ repr_body q rest'
            else String c (repr_body q rest)
        | EmptyString => String c EmptyString
        end
      else String c (repr_body q rest)
  end.

Definition py_repr (s : string) : string :=
  let q := if negb (no_char "'" s) && no_char "034" s then "034"%char else "'"%char in
  String q (repr_body q s ++ String q EmptyString).

(** Python text-mode reading with universal newlines: ["\r\n"] and a lone
    ["\r"] are both read as ["\n"]. *)
Fixpoint translate_newlines (s : string) : string :=
  match s with
  | EmptyString => EmptyString
  | String c rest =>
      if Ascii.eqb c "013" then
        match rest with
        | String c' rest' =>
            if Ascii.eqb c' "010" then String "010" (translate_newlines rest')
            else String "010" (translate_newlines rest)
        | EmptyString => String "010" EmptyString
        end
      else String c (translate_newlines rest)
  end.

(** Iterating a text file ([for line in f]) yields the text cut after each
    newline, the newline kept; a last piece without newline is a line too. *)
Fixpoint py_lines (s : string) : list string :=
  match s with
  | EmptyString => []
  | String c rest =>
      if Ascii.eqb c "010" then String c EmptyString :: py_lines rest
      else match py_lines rest with
           | [] => [String c EmptyString]
           | l :: ls => String c l :: ls
           end
  end.

(** ** Exceptions, I/O events and the monad *)

Inductive exn :=
| ValueError (msg : string)
| OSError (msg : string)
| UnicodeDecodeError (msg : string).

(** [str(e)] *)
Definition exn_str (e : exn) : string :=
  match e with ValueError m | OSError m | UnicodeDecodeError m => m end.

(** Directory paths are lists of components relative to the repository
    root; [os.path.relpath] gives their join with ["/"]. *)
Definition relpath := list string.

(** The path [os.walk] and [walk_directory] build for [rel] below
    [root_dir]: one [os.path.join] per component. *)
Definition full_path (root_dir : string) (rel : relpath) : string :=
  fold_left path_join rel root_dir.

(** The [OSError] a call on [path] raises, by [str()]:
    [[Errno n] strerror: 'path']. *)
Definition os_error (errno strerror path : string) : exn :=
  OSError ("[Errno " ++ errno ++ "] " ++ strerror ++ ": " ++ py_repr path).

Inductive event :=
| EvListDir (dir : relpath)
| EvIsDir (p : relpath)
| EvGetSize (dir : relpath) (name : string)
| EvOpen (dir : relpath) (name : string)
| EvReadLine (dir : relpath) (name : string).

Inductive result (A : Type) := Ok (a : A) | Err (e : exn).
Arguments Ok {A} a.
Arguments Err {A} e.

(** A computation returns a value or raises, and emits the I/O events it
    performed, in order. *)
Definition M (A : Type) : Type := result A * list event.

Definition ret {A} (a : A) : M A := (Ok a, []).
Definition raise {A} (e : exn) : M A := (Err e, []).
Definition tell (ev : event) : M unit := (Ok tt, [ev]).

Definition bind {A B} (m : M A) (f : A -> M B) : M B :=
  match m with
  | (Ok a, l1) => let '(r, l2) := f a in (r, (l1 ++ l2)%list)
  | (Err e, l1) => (Err e, l1)
  end.

(** [try: m except Exception as e: h(e)] *)
Definition catch {A} (m : M A) (h : exn -> M A) : M A :=
  match m with
  | (Ok a, l1) => (Ok a, l1)
  | (Err e, l1) => let '(r, l2) := h e in (r, (l1 ++ l2)%list)
  end.

Notation "x <- m ;; k" := (bind m (fun x => k))
  (at level 61, m at next level, right associativity).
Notation "m ;;; k" := (bind m (fun _ => k))
  (at level 61, right associativity).

(** [for x in l:] collecting lists, in order. *)
Fixpoint concat_mapM {A B} (f : A -> M (list B)) (l : list A) : M (list B) :=
  match l with
  | [] => ret []
  | x :: l' =>
      r <- f x ;;
      rs <- concat_mapM f l' ;;
      ret (r ++ rs)%list
  end.

(** ** File contents *)

(** What iterating an opened file produces: [text] is the text whose
    lines the iterator yields, and [read_error] the exception (an
    [OSError] from [open], a [UnicodeDecodeError] while decoding) it
    raises after yielding them, if any.  Python decodes a text file in
    chunks of 8 KiB, so on a decoding error [text] holds the complete
    lines decoded from the chunks before the bad one, which may be none.
    A file that cannot be opened is [Contents "" (Some e)]. *)
Record contents := Contents { text : string; read_error : option exn }.

Definition file_lines (c : contents) : list string :=
  py_lines (translate_newlines (text c)).

(** ** summarize_text_file (identical in both modules) *)

Definition truncation_marker : string := "... [Truncated]".

(** The [for i, line in enumerate(f)] loop. *)
Fixpoint summarize_loop (dir : relpath) (name : string) (max_lines i : Z)
    (ls : list string) (err : option exn) : M (list string) :=
  match ls with
  | [] => match err with None => ret [] | Some e => raise e end
  | line :: ls' =>
      tell (EvReadLine dir name) ;;;
      if (max_lines <=? i)%Z then ret [truncation_marker]
      else rest <- summarize_loop dir name max_lines (i + 1) ls' err ;;
           ret (rstrip_nl line :: rest)
  end.

Definition summarize_text_file (dir : relpath) (name : string)
    (c : contents) (max_lines : Z) : M string :=
  summary_lines <-
    catch (tell (EvOpen dir name) ;;;
           summarize_loop dir name max_lines 0 (file_lines c) (read_error c))
          (fun e => ret ["Error reading file: " ++ exn_str e]) ;;
  ret (py_join nl summary_lines).

(** ** The filesystem *)

(** A directory entry.  A [File] whose [size] is [None] is one on which
    [os.path.getsize] raises (a dangling symbolic link, a file removed
    meanwhile); [os.walk] and [os.path.isdir] see it as a non-directory.
    A [Dir] whose [listable] flag is false is one the process may not
    read: [os.listdir] raises [PermissionError] on it, and [os.walk]
    skips it.  Other symbolic links are not modelled. *)
Inductive node :=
| File (name : string) (size : option Z) (body : contents)
| Dir (name : string) (listable : bool) (children : list node).

Definition node_name (n : node) : string :=
  match n with File name _ _ | Dir name _ _ => name end.

Definition node_is_dir (n : node) : bool :=
  match n with File _ _ _ => false | Dir _ _ _ => true end.

(** A Python set of strings, used only through [x in s]. *)
Definition mem (x : string) (s : list string) : bool :=
  existsb (String.eqb x) s.

(** [os.path.getsize(os.path.join(current_path, filename))], where
    [current_path] is the directory [dir] below [root_dir]. *)
Definition getsize (root_dir : string) (dir : relpath) (name : string) (size : option Z)
    : M Z :=
  tell (EvGetSize dir name) ;;;
  match size with
  | Some s => ret s
  | None => raise (os_error "2" "No such file or directory"
                     (full_path root_dir (dir ++ [name])%list))
  end.

(** ** create_repo_summary *)

Record file_summary := FileSummary { fs_name : string; summary : string }.
Record dir_entry := DirEntry { directory : relpath; files : list file_summary }.

Definition size_placeholder (size_bytes : Z) : string :=
  "File size (" ++ show_Z size_bytes ++ " bytes) exceeds limit; skipping content.".

Section Walker.

(** [ext.lower() in ignored_extensions], [d not in ignored_dirs], the
    two numeric limits and the [root_dir] path, as [create_repo_summary]
    receives them. *)
Variable ignored_ext : string -> bool.
Variable ignored_dir : string -> bool.
Variable max_file_size_bytes : Z.
Variable max_summary_lines : Z.
Variable root_dir : string.

(** The body of [for filename in files:]; [None] is [continue] without
    appending. *)
Definition process_file (dir : relpath) (f : node) : M (option file_summary) :=
  match f with
  | Dir _ _ _ => ret None
  | File filename size body =>
      if ignored_ext (py_lower (splitext_ext filename)) then ret None
      else
        size_bytes <- getsize root_dir dir filename size ;;
        if (max_file_size_bytes <? size_bytes)%Z then
          ret (Some (FileSummary filename (size_placeholder size_bytes)))
        else
          file_content_summary <-
            summarize_text_file dir filename body max_summary_lines ;;
          ret (Some (FileSummary filename file_content_summary))
  end.

(** The loop over [files] (the non-directories, in listing order). *)
Fixpoint process_files (dir : relpath) (cs : list node) : M (list file_summary) :=
  match cs with
  | [] => ret []
  | c :: cs' =>
      r <- process_file dir c ;;
      rs <- process_files dir cs' ;;
      ret (match r with Some s => s :: rs | None => rs end)
  end.

(** [os.walk] (top-down, [onerror=None]) together with the loop body of
    [create_repo_summary]: the current directory is listed and handled,
    then [walk] descends into the subdirectories left after
    [dirs[:] = [d for d in dirs if d not in ignored_dirs]], in order.  A
    directory that cannot be listed is skipped silently by [os.walk]. *)
Fixpoint walk (rel : relpath) (n : node) : M (list dir_entry) :=
  match n with
  | File _ _ _ => ret []
  | Dir _ listable cs =>
      tell (EvListDir rel) ;;;
      if negb listable then ret []
      else
        file_summaries <- process_files rel cs ;;
        let here := match file_summaries with
                    | [] => []
                    | _ => [DirEntry rel file_summaries]
                    end in
        subs <- concat_mapM (fun c =>
                  match c with
                  | Dir d _ _ => if ignored_dir d then ret [] else walk (rel ++ [d])%list c
                  | File _ _ _ => ret []
                  end) cs ;;
        ret (here ++ subs)%list
  end.

End Walker.

(** ** create_directory_tree's [walk_directory] *)

(** [sorted(...)] on entries, by name (insertion sort, stable). *)
Fixpoint insert_by_name {A} (key : A -> string) (x : A) (l : list A) : list A :=
  match l with
  | [] => [x]
  | y :: l' => if String.leb (key x) (key y) then x :: y :: l'
               else y :: insert_by_name key x l'
  end.

Fixpoint sort_by_name {A} (key : A -> string) (l : list A) : list A :=
  match l with
  | [] => []
  | x :: l' => insert_by_name key x (sort_by_name key l')
  end.

(** An entry of a listed directory: its name, what [os.path.isdir]
    answers for it, and the recursive [walk_directory(full_path, prefix)]
    for it, as a function of [prefix]. *)
Record tree_item := TreeItem {
  item_name : string;
  item_is_dir : bool;
  item_walk : string -> M (list string)
}.

Section Tree.

(** The entry-name filter ([e not in ignored_dirs]), the file filter
    (generator.py skips files whose extension is ignored; repoforge.py keeps
    every file) and the [root_dir] path. *)
Variable ignored_name : string -> bool.
Variable keep_file : string -> bool.
Variable root_dir : string.

Definition last_connector : string := "└── ".
Definition mid_connector : string := "├── ".
Definition last_indent : string := "    ".
Definition mid_indent : string := "│   ".

(** The [for i, entry in enumerate(entries)] loop of [walk_directory(path,
    prefix)]; entry [i] is the last one ([i == len(entries) - 1]) exactly
    when nothing follows it. *)
Fixpoint render_entries (path : relpath) (prefix : string) (es : list tree_item)
    : M (list string) :=
  match es with
  | [] => ret []
  | e :: rest =>
      let is_last := match rest with [] => true | _ => false end in
      let connector := if is_last then last_connector else mid_connector in
      tell (EvIsDir (path ++ [item_name e])%list) ;;;
      here <- (if item_is_dir e then
                 let new_prefix :=
                   prefix ++ (if is_last then last_indent else mid_indent) in
                 sub <- item_walk e new_prefix ;;
                 ret ((prefix ++ connector ++ item_name e ++ "/") :: sub)
               else if keep_file (item_name e) then
                 ret [prefix ++ connector ++ item_name e]
               else ret []) ;;
      others <- render_entries path prefix rest ;;
      ret (here ++ others)%list
  end.

(** [walk_directory(path, prefix)]: [os.listdir(path)], sort, drop ignored
    names, render. *)
Fixpoint walk_directory (path : relpath) (n : node) (prefix : string)
    : M (list string) :=
  match n with
  | File _ _ _ =>
      tell (EvListDir path) ;;;
      raise (os_error "20" "Not a directory" (full_path root_dir path))
  | Dir _ listable cs =>
      tell (EvListDir path) ;;;
      if negb listable
      then raise (os_error "13" "Permission denied" (full_path root_dir path))
      else
        let listing :=
          map (fun c => TreeItem (node_name c) (node_is_dir c)
                          (walk_directory (path ++ [node_name c])%list c)) cs in
        let entries := sort_by_name item_name listing in
        let entries := filter (fun e => negb (ignored_name (item_name e))) entries in
        render_entries path prefix entries
  end.

End Tree.

(** [os.path.basename(os.path.normpath(root_dir)) or root_dir], for a
    root path without ["."] or [".."] components and without repeated
    separators (on such paths [normpath] only drops trailing slashes). *)
Fixpoint strip_trailing_slashes (s : string) : string :=
  match s with
  | EmptyString => EmptyString
  | String c rest =>
      let r := strip_trailing_slashes rest in
      if Ascii.eqb c "/" && String.eqb r EmptyString then EmptyString
      else String c r
  end.

Fixpoint basename_aux (s acc : string) : string :=
  match s with
  | EmptyString => acc
  | String c rest =>
      if Ascii.eqb c "/" then basename_aux rest EmptyString
      else basename_aux rest (acc ++ String c EmptyString)
  end.

Definition root_basename (root_dir : string) : string :=
  let b := basename_aux (strip_trailing_slashes root_dir) EmptyString in
  if String.eqb b EmptyString then root_dir else b.

Definition directory_tree (ignored_name keep_file : string -> bool)
    (root_dir : string) (root : node) : M string :=
  lines <- walk_directory ignored_name keep_file root_dir [] root "" ;;
  ret (py_join nl ((root_basename root_dir ++ "/") :: lines)).

(** ** format_prompt_xml (identical in both modules) *)

Definition dq : string := String "034" EmptyString.

(** Truth value of an optional string argument ([None] is Python's
    [None]): [None] and [""] are falsy. *)
Definition py_truthy (s : option string) : bool :=
  match s with
  | None => false
  | Some s => negb (String.eqb s EmptyString)
  end.

Definition arg_or (s : option string) : string :=
  match s with Some s => s | None => EmptyString end.

Definition content_indent : string := "         ".

(** The lines appended for one [file_info]. *)
Definition file_parts (file_info : file_summary) : list string :=
  ["    <file name=" ++ dq ++ fs_name file_info ++ dq ++ ">";
   "      <content>"]
  ++ map (fun line => content_indent ++ line) (py_split_nl (summary file_info))
  ++ ["      </content>"; "    </file>"].

(** The lines appended for one [entry]. *)
Definition entry_parts (entry : dir_entry) : list string :=
  let d := py_join "/" (directory entry) in
  let dir_path := if String.eqb d EmptyString then "(top-level)" else d in
  ["  <directory name=" ++ dq ++ dir_path ++ dq ++ ">"]
  ++ flat_map file_parts (files entry)
  ++ ["  </directory>"].

Definition system_part (system_message : option string) : string :=
  if py_truthy system_message then py_strip (arg_or system_message)
  else "No system message provided.".

Definition user_part (user_instructions : option string) : string :=
  if py_truthy user_instructions then py_strip (arg_or user_instructions)
  else "No user instructions provided.".

Definition prompt_parts (repo_summary : list dir_entry) (directory_tree : string)
    (system_message user_instructions : option string) : list string :=
  ["DIRECTORY TREE:"; directory_tree; "";
   "<SYSTEM_MESSAGE>"; system_part system_message; "</SYSTEM_MESSAGE>" ++ nl;
   "<USER_INSTRUCTIONS>"; user_part user_instructions;
   "</USER_INSTRUCTIONS>" ++ nl;
   "<REPOSITORY_CONTENTS>"]
  ++ flat_map entry_parts repo_summary
  ++ ["</REPOSITORY_CONTENTS>"].

Definition format_prompt_xml (repo_summary : list dir_entry) (directory_tree : string)
    (system_message user_instructions : option string) : string :=
  py_join nl (prompt_parts repo_summary directory_tree system_message user_instructions).

(** [os.path.isdir(repo_dir)], given what lies at [repo_dir]. *)
Definition py_isdir (at_path : option node) : bool :=
  match at_path with Some (Dir _ _ _) => true | _ => false end.

(** The [if __name__ == "__main__":] block (the same in both modules):
    [sys.argv] is [prog :: args]; [fs repo_dir] is what lies at
    [repo_dir].  The result is what is printed on standard output, the
    exit status, and the I/O performed. *)
Definition cli_main (generate_prompt : string -> option string -> option string -> M string)
    (prog : string) (args : list string) : (string * Z) * list event :=
  match args with
  | [] =>
      (("Usage: python " ++ prog
        ++ " <repo_directory> [<system_message>] [<user_instructions>]" ++ nl, 1%Z), [])
  | repo_dir :: rest =>
      let system_message := match rest with s :: _ => s | [] => "" end in
      let user_instructions := match rest with _ :: u :: _ => u | _ => "" end in
      match generate_prompt repo_dir (Some system_message) (Some user_instructions) with
      | (Ok prompt, log) => ((prompt ++ nl, 0%Z), log)
      | (Err e, log) => (("Error: " ++ exn_str e ++ nl, 1%Z), log)
      end
  end.

(** ** src/generator.py *)
Module Generator.

Definition IGNORED_DIRS : list string := [".git"; "__pycache__"; ".idea"; ".vscode"].
Definition IGNORED_EXTENSIONS : list string :=
  [".pyc"; ".png"; ".jpg"; ".jpeg"; ".gif"; ".pdf"; ".zip"].
Definition MAX_FILE_SIZE_BYTES : Z := 100000.
Definition MAX_SUMMARY_LINES : Z := 500.

Definition ignored_dir (d : string) : bool := mem d IGNORED_DIRS.
Definition ignored_ext (ext : string) : bool := mem ext IGNORED_EXTENSIONS.

(** The tree view skips files whose extension is ignored. *)
Definition create_directory_tree (root_dir : string) (root : node) : M string :=
  directory_tree ignored_dir
    (fun entry => negb (ignored_ext (py_lower (splitext_ext entry))))
    root_dir root.

Definition create_repo_summary (root_dir : string) (root : node) : M (list dir_entry) :=
  walk ignored_ext ignored_dir MAX_FILE_SIZE_BYTES MAX_SUMMARY_LINES root_dir [] root.

(** [at_path] is what lies at [repo_dir] in the filesystem, if anything;
    [os.path.isdir(repo_dir)] is logged as a test of the root. *)
Definition generate_prompt (repo_dir : string) (at_path : option node)
    (system_message user_instructions : option string) : M string :=
  tell (EvIsDir []) ;;;
  match at_path with
  | Some root =>
      if py_isdir at_path then
        directory_tree <- create_directory_tree repo_dir root ;;
        repo_summary <- create_repo_summary repo_dir root ;;
        ret (format_prompt_xml repo_summary directory_tree
               system_message user_instructions)
      else raise (ValueError ("Directory " ++ repo_dir ++ " does not exist."))
  | None => raise (ValueError ("Directory " ++ repo_dir ++ " does not exist."))
  end.

Definition main (fs : string -> option node) (prog : string) (args : list string)
    : (string * Z) * list event :=
  cli_main (fun repo_dir => generate_prompt repo_dir (fs repo_dir)) prog args.

End Generator.

(** ** src/repoforge/repoforge.py *)
Module Repoforge.

Definition DEFAULT_IGNORED_DIRS : list string :=
  [".git"; "__pycache__"; ".idea"; ".vscode"].
Definition DEFAULT_IGNORED_EXTENSIONS : list string :=
  [".pyc"; ".png"; ".jpg"; ".jpeg"; ".gif"; ".pdf"; ".zip"].
(** [1e20] is a float with the exact integer value [10^20]; comparing an
    [int] size with it is exact. *)
Definition DEFAULT_MAX_FILE_SIZE_BYTES : Z := 10 ^ 20.
Definition DEFAULT_MAX_SUMMARY_LINES : Z := 500.

(** The tree view keeps every file. *)
Definition create_directory_tree (root_dir : string) (root : node)
    (ignored_dirs : list string) : M string :=
  directory_tree (fun e => mem e ignored_dirs) (fun _ => true) root_dir root.

Definition create_repo_summary (root_dir : string) (root : node)
    (ignored_dirs ignored_extensions : list string)
    (max_file_size_bytes max_summary_lines : Z) : M (list dir_entry) :=
  walk (fun ext => mem ext ignored_extensions) (fun d => mem d ignored_dirs)
    max_file_size_bytes max_summary_lines root_dir [] root.

Definition generate_prompt (repo_dir : string) (at_path : option node)
    (system_message user_instructions : option string)
    (max_file_size_bytes max_lines : Z)
    (ignored_dirs ignored_extensions : list string) : M string :=
  tell (EvIsDir []) ;;;
  match at_path with
  | Some root =>
      if py_isdir at_path then
        directory_tree <- create_directory_tree repo_dir root ignored_dirs ;;
        repo_summary <- create_repo_summary repo_dir root ignored_dirs ignored_extensions
                          max_file_size_bytes max_lines ;;
        ret (format_prompt_xml repo_summary directory_tree
               system_message user_instructions)
      else raise (ValueError ("Directory " ++ repo_dir ++ " does not exist."))
  | None => raise (ValueError ("Directory " ++ repo_dir ++ " does not exist."))
  end.

(** The command line calls it with the defaults. *)
Definition generate_prompt_defaults (repo_dir : string) (at_path : option node)
    (system_message user_instructions : option string) : M string :=
  generate_prompt repo_dir at_path system_message user_instructions
    DEFAULT_MAX_FILE_SIZE_BYTES DEFAULT_MAX_SUMMARY_LINES
    DEFAULT_IGNORED_DIRS DEFAULT_IGNORED_EXTENSIONS.

Definition main (fs : string -> option node) (prog : string) (args : list string)
    : (string * Z) * list event :=
  cli_main (fun repo_dir => generate_prompt_defaults repo_dir (fs repo_dir)) prog args.

End Repoforge.

(** ** Sample inputs *)

Definition text_file (name s : string) : node :=
  File name (Some (Z.of_nat (String.length s))) (Contents s None).

(** The example of the spec: [a.txt] holding ["hello\n"] and [.git/config]. *)
Definition sample_repo : node :=
  Dir "repo" true
    [Dir ".git" true [text_file "config" "[core]"];
     text_file "a.txt" ("hello" ++ nl)].

(** * Definitions used by the properties *)

(** Removing one trailing newline, if there is one. *)
Fixpoint chomp (s : string) : string :=
  match s with
  | EmptyString => EmptyString
  | String c EmptyString => if Ascii.eqb c "010" then EmptyString else s
  | String c rest => String c (chomp rest)
  end.

Fixpoint no_nl (s : string) : Prop :=
  match s with
  | EmptyString => True
  | String c rest => c <> "010"%char /\ no_nl rest
  end.

(** A line produced by [py_lines] has no newline but possibly its last
    character. *)
Definition line_shape (l : string) : Prop :=
  no_nl l \/ exists l', no_nl l' /\ l = l' ++ nl.

Section NodeInd.
Variable P : node -> Prop.
Hypothesis P_file : forall name size body, P (File name size body).
Hypothesis P_dir : forall name ok cs, Forall P cs -> P (Dir name ok cs).

Fixpoint node_ind' (n : node) : P n :=
  match n with
  | File name size body => P_file name size body
  | Dir name ok cs =>
      P_dir name ok cs
        ((fix go (cs : list node) : Forall P cs :=
            match cs with
            | [] => Forall_nil P
            | c :: cs' => Forall_cons c (node_ind' c) (go cs')
            end) cs)
  end.
End NodeInd.

(** Removes, in every directory, the entries selected by [drop] (the root
    itself stays). *)
Fixpoint prune (drop : node -> bool) (n : node) : node :=
  match n with
  | File _ _ _ => n
  | Dir name ok cs =>
      Dir name ok
        ((fix go (cs : list node) : list node :=
            match cs with
            | [] => []
            | c :: cs' => if drop c then go cs' else prune drop c :: go cs'
            end) cs)
  end.

(** Order of a list sorted by [key]. *)
Definition le_key {A} (key : A -> string) (x y : A) : Prop :=
  String.leb (key x) (key y) = true.

(** The step of [walk] for one entry of a listed directory. *)
Definition walk_sub (ie id : string -> bool) (mx ml : Z) (top : string) (rel : relpath)
    (c : node) : M (list dir_entry) :=
  match c with
  | Dir d _ _ => if id d then ret [] else walk ie id mx ml top (rel ++ [d])%list c
  | File _ _ _ => ret []
  end.

(** The listing item [walk_directory] builds for an entry. *)
Definition tree_item_of (ign keep : string -> bool) (top : string) (path : relpath)
    (c : node) : tree_item :=
  TreeItem (node_name c) (node_is_dir c)
    (walk_directory ign keep top (path ++ [node_name c])%list c).

(** The directories [os.walk] reaches from [n], with their paths: [n]
    itself, and below a listable directory every subdirectory whose name is
    not ignored. *)
Fixpoint visited_dirs (id : string -> bool) (n : node) : list (relpath * node) :=
  match n with
  | File _ _ _ => []
  | Dir _ ok cs =>
      ([], n) ::
      (if ok then
         flat_map (fun c =>
           match c with
           | Dir d _ _ =>
               if id d then []
               else map (fun pd => (d :: fst pd, snd pd)) (visited_dirs id c)
           | File _ _ _ => []
           end) cs
       else [])
  end.

Inductive reaches (id : string -> bool) : node -> relpath -> node -> Prop :=
| reaches_here : forall name ok cs,
    reaches id (Dir name ok cs) [] (Dir name ok cs)
| reaches_sub : forall name cs d ok' cs' p x,
    In (Dir d ok' cs') cs -> id d = false ->
    reaches id (Dir d ok' cs') p x ->
    reaches id (Dir name true cs) (d :: p) x.

Definition eligible (ie : string -> bool) (c : node) : bool :=
  match c with
  | File name _ _ => negb (ie (py_lower (splitext_ext name)))
  | Dir _ _ _ => false
  end.

Definition ignored_subdir (ign : string -> bool) (c : node) : bool :=
  node_is_dir c && ign (node_name c).

Definition ignored_entry (ign : string -> bool) (c : node) : bool :=
  ign (node_name c).

Definition ext_ignored_file (ie : string -> bool) (c : node) : bool :=
  match c with
  | File name _ _ => ie (py_lower (splitext_ext name))
  | Dir _ _ _ => false
  end.

(** The spec's case-insensitive match of an extension against a set:
    equal to an element once both are lower-cased. *)
Definition ci_mem (ext : string) (set : list string) : bool :=
  existsb (fun x => String.eqb (py_lower ext) (py_lower x)) set.

Definition ci_ignored_file (iexts : list string) (c : node) : bool :=
  match c with
  | File name _ _ => ci_mem (splitext_ext name) iexts
  | Dir _ _ _ => false
  end.

Definition big_file_repo : node :=
  Dir "repo" true
    [Dir "data" true [File "dump.sql" (Some 250000%Z) (Contents "INSERT" None)]].

(** A top-level directory holding only an image, with a subdirectory
    holding a text file. *)
Definition image_repo : node :=
  Dir "repo" true
    [text_file "logo.png" "PNG";
     Dir "docs" true [text_file "README" "hi"]].

Definition dotgit_file_repo : node :=
  Dir "repo" true [text_file ".git" "gitdir: ../main/.git"; text_file "a.txt" "hi"].

(** Two Python sets with the same elements, whatever their iteration order. *)
Definition same_elems (l1 l2 : list string) : bool :=
  forallb (fun x => mem x l2) l1 && forallb (fun x => mem x l1) l2.





(** [os.listdir] succeeds on a node (files are not listed by the walk). *)
Definition node_listable (n : node) : bool :=
  match n with Dir _ ok _ => ok | File _ _ _ => true end.

(** [os.path.getsize] succeeds on a node. *)
Definition has_size (n : node) : bool :=
  match n with File _ None _ => false | _ => true end.


(** Every file anywhere in the tree satisfies [p]. *)
Fixpoint all_files (p : node -> bool) (n : node) : bool :=
  match n with
  | File _ _ _ => p n
  | Dir _ _ cs => forallb (all_files p) cs
  end.

(** The I/O the walker may perform on [root]: listing a directory it
    reaches; querying the size of a file of a reached listable directory
    whose extension is not ignored; opening and reading such a file when
    its size is at most [mx]. *)
Definition walk_event_ok (ie id : string -> bool) (mx : Z) (root : node) (ev : event) : Prop :=
  match ev with
  | EvListDir p => exists x, In (p, x) (visited_dirs id root)
  | EvIsDir _ => False
  | EvGetSize p name =>
      exists (dn : string) (cs : list node) (size : option Z) (body : contents),
        In (p, Dir dn true cs) (visited_dirs id root) /\
        In (File name size body) cs /\ eligible ie (File name size body) = true
  | EvOpen p name | EvReadLine p name =>
      exists (dn : string) (cs : list node) (s : Z) (body : contents),
        In (p, Dir dn true cs) (visited_dirs id root) /\
        In (File name (Some s) body) cs /\ eligible ie (File name (Some s) body) = true /\
        (s <= mx)%Z
  end.

(** [walk_event_ok] for a walk started at path [rel] on [n]. *)
Definition walk_event_at (ie id : string -> bool) (mx : Z) (rel : relpath) (n : node)
    (ev : event) : Prop :=
  match ev with
  | EvListDir q => exists p x, q = (rel ++ p)%list /\ In (p, x) (visited_dirs id n)
  | EvIsDir _ => False
  | EvGetSize q name =>
      exists p (dn : string) (cs : list node) (size : option Z) (body : contents),
        q = (rel ++ p)%list /\ In (p, Dir dn true cs) (visited_dirs id n) /\
        In (File name size body) cs /\ eligible ie (File name size body) = true
  | EvOpen q name | EvReadLine q name =>
      exists p (dn : string) (cs : list node) (s : Z) (body : contents),
        q = (rel ++ p)%list /\ In (p, Dir dn true cs) (visited_dirs id n) /\
        In (File name (Some s) body) cs /\ eligible ie (File name (Some s) body) = true /\
        (s <= mx)%Z
  end.

(** The I/O the tree view may perform on [n], its paths starting at
    [rel]: listing a directory the walk reaches, and testing with
    [os.path.isdir] an entry, not ignored by name, of a reached directory
    that can be listed. *)
Definition tree_event_at (ign : string -> bool) (rel : relpath) (n : node) (ev : event)
    : Prop :=
  match ev with
  | EvListDir q => exists p x, q = (rel ++ p)%list /\ In (p, x) (visited_dirs ign n)
  | EvIsDir q =>
      exists p (dn : string) (cs : list node) c,
        q = (rel ++ p ++ [node_name c])%list /\ In (p, Dir dn true cs) (visited_dirs ign n) /\
        In c cs /\ ign (node_name c) = false
  | _ => False
  end.

(** A run that returns instead of raising. *)
Definition succeeds {A} (m : M A) : Prop := exists a l, m = (Ok a, l).

(** A file on which generator.py and repoforge.py (with its defaults)
    act alike: its extension is not ignored and, if it has a size, that
    size is at most generator.py's limit. *)
Definition plain_file (c : node) : bool :=
  match c with
  | File name size _ =>
      negb (Generator.ignored_ext (py_lower (splitext_ext name))) &&
      match size with
      | Some s => (s <=? Generator.MAX_FILE_SIZE_BYTES)%Z
      | None => true
      end
  | Dir _ _ _ => true
  end.

(** The entries [walk_directory] shows for a listed directory, in order:
    sorted by name, ignored names removed. *)
Definition tree_entries (ign : string -> bool) (cs : list node) : list node :=
  filter (fun c => negb (ign (node_name c))) (sort_by_name node_name cs).

(** A directory whose last entry, by name, is an image. *)
Definition trailing_image_repo : node :=
  Dir "repo" true
    [text_file "z.png" "PNG"; Dir "docs" true [text_file "README" "hi"];
     text_file "a.txt" "hi"].

(** What [generate_prompt] needs to succeed on [root]: [root] is a
    directory, every directory reached below it (ignored names excluded)
    can be listed, and every file of those directories whose extension is
    not ignored has a size. *)
Definition prompt_ok (ie id : string -> bool) (root : node) : Prop :=
  node_is_dir root = true /\
  (forall p x, In (p, x) (visited_dirs id root) -> node_listable x = true) /\
  (forall p name cs c, In (p, Dir name true cs) (visited_dirs id root) -> In c cs ->
     eligible ie c = true -> has_size c = true).

(** A file text with [\r\n] line endings. *)
Definition crlf_text : string :=
  "a" ++ String "013" nl ++ "b" ++ String "013" nl.

(** * Properties *)

Example sample_prompt :
  fst (Generator.generate_prompt "repo" (Some sample_repo) (Some "") (Some "")) =
  Ok (py_join nl
    ["DIRECTORY TREE:"; "repo/"; "└── a.txt"; "";
     "<SYSTEM_MESSAGE>"; "No system message provided."; "</SYSTEM_MESSAGE>" ++ nl;
     "<USER_INSTRUCTIONS>"; "No user instructions provided."; "</USER_INSTRUCTIONS>" ++ nl;
     "<REPOSITORY_CONTENTS>";
     "  <directory name=" ++ dq ++ "(top-level)" ++ dq ++ ">";
     "    <file name=" ++ dq ++ "a.txt" ++ dq ++ ">";
     "      <content>"; "         hello"; "      </content>"; "    </file>";
     "  </directory>"; "</REPOSITORY_CONTENTS>"]).
Proof. vm_compute. reflexivity. Qed.

(** ** Strings and lines *)


Lemma py_lines_shape : forall s, Forall line_shape (py_lines s).
Proof.
  induction s as [|c rest IH]; simpl; [constructor|].
  destruct (Ascii.eqb_spec c "010") as [->|Hc].
  - constructor; [|exact IH]. right. exists EmptyString. split; [exact I|reflexivity].
  - destruct (py_lines rest) as [|l ls] eqn:E.
    + constructor; [|constructor]. left. simpl. tauto.
    + inversion IH as [|? ? Hl Hls]; subst. constructor; [|exact Hls].
      destruct Hl as [Hl|[l' [Hl' ->]]].
      * left. simpl. tauto.
      * right. exists (String c l'). split; [simpl; tauto|reflexivity].
Qed.

Lemma rstrip_nl_no_nl : forall l, no_nl l -> rstrip_nl l = l.
Proof.
  induction l as [|c rest IH]; simpl; [reflexivity|]. intros [Hc Hr].
  rewrite IH by exact Hr.
  destruct (Ascii.eqb_spec c "010"); [contradiction|reflexivity].
Qed.

Lemma chomp_no_nl : forall l, no_nl l -> chomp l = l.
Proof.
  induction l as [|c rest IH]; simpl; [reflexivity|]. intros [Hc Hr].
  destruct rest as [|c' rest'].
  - destruct (Ascii.eqb_spec c "010"); [contradiction|reflexivity].
  - rewrite IH by exact Hr. reflexivity.
Qed.

Lemma rstrip_nl_line : forall l', no_nl l' -> rstrip_nl (l' ++ nl) = l'.
Proof.
  induction l' as [|c rest IH]; simpl; [reflexivity|]. intros [Hc Hr].
  rewrite IH by exact Hr.
  destruct (Ascii.eqb_spec c "010"); [contradiction|reflexivity].
Qed.

Lemma chomp_line : forall l', no_nl l' -> chomp (l' ++ nl) = l'.
Proof.
  induction l' as [|c rest IH]; simpl; [reflexivity|]. intros [Hc Hr].
  destruct rest as [|c' rest'].
  - reflexivity.
  - rewrite <- IH at 2 by exact Hr. reflexivity.
Qed.

Lemma rstrip_nl_chomp : forall l, line_shape l -> rstrip_nl l = chomp l.
Proof.
  intros l [Hl|[l' [Hl' ->]]].
  - rewrite rstrip_nl_no_nl, chomp_no_nl; auto.
  - rewrite rstrip_nl_line, chomp_line; auto.
Qed.

Lemma map_rstrip_nl_chomp : forall ls,
  Forall line_shape ls -> map rstrip_nl ls = map chomp ls.
Proof.
  induction 1; simpl; [reflexivity|]. rewrite rstrip_nl_chomp, IHForall; auto.
Qed.

Lemma Forall_firstn {A} (P : A -> Prop) : forall k ls,
  Forall P ls -> Forall P (firstn k ls).
Proof.
  induction k; intros [|x ls] H; simpl; try constructor.
  - inversion H; assumption.
  - inversion H; subst; auto.
Qed.

(** ** The reading loop of summarize_text_file *)

Lemma summarize_loop_complete : forall dir name max ls i,
  summarize_loop dir name max i ls None =
    (Ok (map rstrip_nl (firstn (Z.to_nat (max - i)) ls)
         ++ (if (Z.to_nat (max - i) <? length ls)%nat
             then [truncation_marker] else []))%list,
     repeat (EvReadLine dir name) (Nat.min (length ls) (S (Z.to_nat (max - i))))).
Proof.
  intros dir name max ls. induction ls as [|l ls IH]; intros i.
  - simpl. destruct (Z.to_nat (max - i)); reflexivity.
  - simpl. destruct (Z.leb_spec max i) as [Hle|Hlt]; simpl.
    + replace (Z.to_nat (max - i)) with 0%nat by lia. simpl.
      rewrite Nat.min_0_r. reflexivity.
    + rewrite (IH (i + 1)%Z).
      replace (Z.to_nat (max - i)) with (S (Z.to_nat (max - (i + 1)))) by lia.
      simpl. rewrite app_nil_r. reflexivity.
Qed.

Lemma summarize_text_file_readable : forall dir name t max_lines,
  summarize_text_file dir name (Contents t None) max_lines =
    (Ok (py_join nl
          (map rstrip_nl (firstn (Z.to_nat max_lines) (file_lines (Contents t None)))
           ++ (if (Z.to_nat max_lines <? length (file_lines (Contents t None)))%nat
               then [truncation_marker] else []))),
     EvOpen dir name :: repeat (EvReadLine dir name)
       (Nat.min (length (file_lines (Contents t None))) (S (Z.to_nat max_lines)))).
Proof.
  intros. unfold summarize_text_file. simpl read_error.
  unfold catch, bind at 1. simpl.
  rewrite summarize_loop_complete, Z.sub_0_r, app_nil_r. reflexivity.
Qed.

(** ** C1 *)

(** C1: on a file that reads as text without error, with [n] lines,
    [summarize_text_file] returns the first [min n max_lines] lines, each
    without its trailing newline, joined by newlines, followed by one
    ["... [Truncated]"] line exactly when [n > max_lines]; it reads
    [min n (max_lines + 1)] lines and no more (the line after the cap is
    the one that shows more lines exist).  [Z.to_nat] makes a negative cap
    act as [0], as the comparison [i >= max_lines] does. *)
Theorem summarize_text_file_first_lines : forall dir name t max_lines,
  let ls := file_lines (Contents t None) in
  summarize_text_file dir name (Contents t None) max_lines =
    (Ok (py_join nl
          (map chomp (firstn (Z.to_nat max_lines) ls)
           ++ (if (Z.to_nat max_lines <? length ls)%nat
               then [truncation_marker] else []))),
     EvOpen dir name :: repeat (EvReadLine dir name)
       (Nat.min (length ls) (S (Z.to_nat max_lines)))).
Proof.
  intros dir name t max_lines ls. subst ls.
  rewrite summarize_text_file_readable.
  rewrite map_rstrip_nl_chomp; [reflexivity|].
  apply Forall_firstn, py_lines_shape.
Qed.

(** ** C10 *)

(** C10: an empty readable file (no lines) is summarized as [""], and the
    formatter renders a file whose summary is [""] with a content block of
    exactly one line of nine spaces, since ["".split("\n")] is [[""]]. *)
Theorem empty_file_content_block : forall dir name t max_lines fname,
  file_lines (Contents t None) = [] ->
  summarize_text_file dir name (Contents t None) max_lines = (Ok "", [EvOpen dir name]) /\
  file_parts (FileSummary fname "") =
    ["    <file name=" ++ dq ++ fname ++ dq ++ ">"; "      <content>";
     "         "; "      </content>"; "    </file>"].
Proof.
  intros dir name t max_lines fname H. split.
  - rewrite summarize_text_file_readable, H. simpl.
    destruct (Z.to_nat max_lines); reflexivity.
  - reflexivity.
Qed.

Lemma empty_file_content_block_witness :
  file_lines (Contents "" None) = [] /\
  summarize_text_file ["src"] "empty.txt" (Contents "" None) 500 =
    (Ok "", [EvOpen ["src"] "empty.txt"]) /\
  file_parts (FileSummary "empty.txt" "") =
    ["    <file name=" ++ dq ++ "empty.txt" ++ dq ++ ">"; "      <content>";
     "         "; "      </content>"; "    </file>"].
Proof.
  assert (H : file_lines (Contents "" None) = []) by reflexivity.
  split; [exact H|]. exact (empty_file_content_block ["src"] "empty.txt" "" 500 "empty.txt" H).
Defined.

(** ** C7 *)

(** C7: the prompt starts with the tree, then a [<SYSTEM_MESSAGE>] section
    and a [<USER_INSTRUCTIONS>] section, each holding one text: the
    fallback literal when the argument is absent ([None]) or empty, and the
    argument with leading and trailing whitespace stripped otherwise. *)
Theorem format_prompt_message_sections : forall repo_summary tree sys user,
  exists sys_text user_text rest,
    format_prompt_xml repo_summary tree sys user =
      "DIRECTORY TREE:" ++ nl ++ tree ++ nl ++ nl
      ++ "<SYSTEM_MESSAGE>" ++ nl ++ sys_text ++ nl ++ "</SYSTEM_MESSAGE>" ++ nl ++ nl
      ++ "<USER_INSTRUCTIONS>" ++ nl ++ user_text ++ nl ++ "</USER_INSTRUCTIONS>" ++ nl ++ nl
      ++ rest
    /\ ((sys = None \/ sys = Some "") -> sys_text = "No system message provided.")
    /\ (forall s, sys = Some s -> s <> "" -> sys_text = py_strip s)
    /\ ((user = None \/ user = Some "") -> user_text = "No user instructions provided.")
    /\ (forall s, user = Some s -> s <> "" -> user_text = py_strip s).
Proof.
  intros repo_summary tree sys user.
  exists (system_part sys), (user_part user),
    (py_join nl ("<REPOSITORY_CONTENTS>" :: flat_map entry_parts repo_summary
                 ++ ["</REPOSITORY_CONTENTS>"])).
  split; [|repeat split].
  - unfold format_prompt_xml, prompt_parts. simpl app.
    destruct (flat_map entry_parts repo_summary); reflexivity.
  - intros [-> | ->]; reflexivity.
  - intros s -> Hs. unfold system_part, py_truthy. simpl.
    destruct (String.eqb_spec s ""); [contradiction|reflexivity].
  - intros [-> | ->]; reflexivity.
  - intros s -> Hs. unfold user_part, py_truthy. simpl.
    destruct (String.eqb_spec s ""); [contradiction|reflexivity].
Qed.

(** ** Induction on nodes, monad facts *)


Lemma bind_ret {A B} (a : A) (f : A -> M B) : bind (ret a) f = f a.
Proof. unfold bind, ret. destruct (f a). reflexivity. Qed.

Lemma bind_Ok {A B} (m : M A) (f : A -> M B) b l :
  bind m f = (Ok b, l) ->
  exists a l1 l2, m = (Ok a, l1) /\ f a = (Ok b, l2) /\ l = (l1 ++ l2)%list.
Proof.
  unfold bind. destruct m as [[a|e] l1]; [|discriminate].
  destruct (f a) as [r l2] eqn:E. intros H. inversion H; subst.
  exists a, l1, l2. auto.
Qed.

(** ** Removing entries *)


Lemma prune_dir_eq : forall drop name ok cs,
  prune drop (Dir name ok cs) =
    Dir name ok (map (prune drop) (filter (fun c => negb (drop c)) cs)).
Proof.
  intros. simpl. f_equal. induction cs as [|c cs IH]; [reflexivity|].
  simpl. destruct (drop c); simpl; rewrite IH; reflexivity.
Qed.

Lemma prune_name : forall drop n, node_name (prune drop n) = node_name n.
Proof. intros drop [] ; reflexivity. Qed.

Lemma prune_is_dir : forall drop n, node_is_dir (prune drop n) = node_is_dir n.
Proof. intros drop []; reflexivity. Qed.

(** ** Sorting by name *)

Lemma string_compare_not_gt_trans : forall a b c,
  String.compare a b <> Gt -> String.compare b c <> Gt -> String.compare a c <> Gt.
Proof.
  induction a as [|x a IH]; intros [|y b] [|z c]; simpl;
    try discriminate; try congruence.
  unfold Ascii.compare.
  destruct (N.compare_spec (N_of_ascii x) (N_of_ascii y)) as [Hxy|Hxy|Hxy];
  destruct (N.compare_spec (N_of_ascii y) (N_of_ascii z)) as [Hyz|Hyz|Hyz];
  destruct (N.compare_spec (N_of_ascii x) (N_of_ascii z)) as [Hxz|Hxz|Hxz];
  try congruence; try lia.
  apply IH.
Qed.

Lemma string_leb_trans : forall a b c,
  String.leb a b = true -> String.leb b c = true -> String.leb a c = true.
Proof.
  unfold String.leb. intros a b c Hab Hbc.
  assert (H : String.compare a c <> Gt).
  { apply string_compare_not_gt_trans with b.
    - destruct (String.compare a b); congruence.
    - destruct (String.compare b c); congruence. }
  destruct (String.compare a c); congruence.
Qed.

Section Sorting.
Variable A : Type.
Variable key : A -> string.

Lemma In_insert : forall x l z,
  In z (insert_by_name key x l) <-> z = x \/ In z l.
Proof.
  intros x l z. induction l as [|y l IH]; simpl.
  - intuition congruence.
  - destruct (String.leb (key x) (key y)); simpl; rewrite ?IH; intuition congruence.
Qed.

Lemma insert_sorted : forall x l,
  StronglySorted (le_key key) l -> StronglySorted (le_key key) (insert_by_name key x l).
Proof.
  intros x l. induction l as [|y l IH]; intros Hs; simpl.
  - repeat constructor.
  - inversion Hs as [|? ? Hl Hyl]; subst.
    destruct (String.leb (key x) (key y)) eqn:Exy.
    + constructor; [exact Hs|]. constructor; [exact Exy|].
      rewrite Forall_forall in *. intros z Hz.
      apply string_leb_trans with (key y); [exact Exy|exact (Hyl z Hz)].
    + constructor; [apply IH, Hl|]. apply Forall_forall. intros z Hz.
      apply In_insert in Hz as [->|Hz].
      * unfold le_key. destruct (String.leb_total (key x) (key y)); congruence.
      * rewrite Forall_forall in Hyl. exact (Hyl z Hz).
Qed.

Lemma sort_sorted : forall l, StronglySorted (le_key key) (sort_by_name key l).
Proof.
  induction l as [|x l IH]; simpl; [constructor|]. apply insert_sorted, IH.
Qed.

Lemma insert_head : forall x m,
  (forall z, In z m -> (le_key key) x z) -> insert_by_name key x m = x :: m.
Proof.
  intros x [|y m] H; simpl; [reflexivity|].
  rewrite (H y (or_introl eq_refl)). reflexivity.
Qed.

Lemma filter_insert : forall (p : A -> bool) x l,
  StronglySorted (le_key key) l ->
  filter p (insert_by_name key x l) =
    if p x then insert_by_name key x (filter p l) else filter p l.
Proof.
  intros p x l. induction l as [|y l IH]; intros Hs; simpl.
  - destruct (p x); reflexivity.
  - inversion Hs as [|? ? Hl Hyl]; subst.
    destruct (String.leb (key x) (key y)) eqn:Exy.
    + assert (Hall : forall z, In z (filter p (y :: l)) -> (le_key key) x z).
      { intros z Hz.
        apply filter_In in Hz as [Hz _]. destruct Hz as [<-|Hz]; [exact Exy|].
        rewrite Forall_forall in Hyl.
        apply string_leb_trans with (key y); [exact Exy|exact (Hyl z Hz)]. }
      change (filter p (x :: y :: l)) with
        (if p x then x :: filter p (y :: l) else filter p (y :: l)).
      destruct (p x) eqn:Px; [|reflexivity].
      symmetry. apply insert_head, Hall.
    + simpl. rewrite IH by exact Hl.
      destruct (p y) eqn:Py, (p x) eqn:Px; simpl; rewrite ?Exy; reflexivity.
Qed.

Lemma filter_sort : forall (p : A -> bool) l,
  filter p (sort_by_name key l) = sort_by_name key (filter p l).
Proof.
  intros p l. induction l as [|x l IH]; simpl; [reflexivity|].
  rewrite filter_insert by apply sort_sorted. rewrite IH.
  destruct (p x); reflexivity.
Qed.

End Sorting.

Lemma map_insert {A B} (ka : A -> string) (kb : B -> string) (f : A -> B) :
  (forall x, kb (f x) = ka x) ->
  forall x l, map f (insert_by_name ka x l) = insert_by_name kb (f x) (map f l).
Proof.
  intros Hk x l. induction l as [|y l IH]; simpl; [reflexivity|].
  rewrite !Hk. destruct (String.leb (ka x) (ka y)); simpl; rewrite ?IH; reflexivity.
Qed.

Lemma map_sort {A B} (ka : A -> string) (kb : B -> string) (f : A -> B) :
  (forall x, kb (f x) = ka x) ->
  forall l, map f (sort_by_name ka l) = sort_by_name kb (map f l).
Proof.
  intros Hk l. induction l as [|x l IH]; simpl; [reflexivity|].
  rewrite (map_insert ka kb f Hk), IH. reflexivity.
Qed.

Lemma filter_map_comm {A B} (f : B -> bool) (g : A -> B) l :
  filter f (map g l) = map g (filter (fun x => f (g x)) l).
Proof.
  induction l as [|x l IH]; simpl; [reflexivity|].
  destruct (f (g x)); simpl; rewrite IH; reflexivity.
Qed.

Lemma filter_filter_weaker {A} (p q : A -> bool) l :
  (forall x, q x = true -> p x = true) ->
  filter q (filter p l) = filter q l.
Proof.
  intros H. induction l as [|x l IH]; simpl; [reflexivity|].
  destruct (p x) eqn:Px; simpl; destruct (q x) eqn:Qx; rewrite ?IH; try reflexivity.
  rewrite (H x Qx) in Px. discriminate.
Qed.

Lemma ci_mem_lower : forall iexts, Forall (fun x => py_lower x = x) iexts ->
  forall e, ci_mem e iexts = mem (py_lower e) iexts.
Proof.
  intros iexts H e. induction H as [|x xs Hx _ IH]; [reflexivity|].
  unfold ci_mem, mem in *. simpl. rewrite Hx, IH. reflexivity.
Qed.

Lemma bind_ret_r {A} (m : M A) : bind m (fun x => ret x) = m.
Proof. destruct m as [[a|e] l]; simpl; rewrite ?app_nil_r; reflexivity. Qed.

(** ** Pruning and the walker *)

Section WalkPrune.
Variables (ie id : string -> bool) (mx ml : Z) (top : string) (drop : node -> bool).

(** A dropped entry is one the loop body skips without I/O, and that is
    not descended into. *)
Hypothesis drop_skipped : forall c dir,
  drop c = true -> process_file ie mx ml top dir c = ret None.
Hypothesis drop_not_walked : forall c,
  drop c = true -> node_is_dir c = true -> id (node_name c) = true.


Lemma walk_dir_unfold : forall rel name ok cs,
  walk ie id mx ml top rel (Dir name ok cs) =
    (tell (EvListDir rel) ;;;
     if negb ok then ret []
     else file_summaries <- process_files ie mx ml top rel cs ;;
          subs <- concat_mapM (walk_sub ie id mx ml top rel) cs ;;
          ret (match file_summaries with
               | [] => []
               | _ => [DirEntry rel file_summaries]
               end ++ subs)%list).
Proof. reflexivity. Qed.

Lemma process_file_prune : forall dir c,
  process_file ie mx ml top dir (prune drop c) = process_file ie mx ml top dir c.
Proof. intros dir []; reflexivity. Qed.

Lemma process_files_prune : forall dir cs,
  process_files ie mx ml top dir (map (prune drop) (filter (fun c => negb (drop c)) cs))
  = process_files ie mx ml top dir cs.
Proof.
  intros dir cs. induction cs as [|c cs IH]; [reflexivity|]. simpl.
  destruct (drop c) eqn:D; simpl.
  - rewrite (drop_skipped c dir D), bind_ret, IH. symmetry. apply bind_ret_r.
  - rewrite process_file_prune, IH. reflexivity.
Qed.

Lemma walk_prune : forall n rel,
  walk ie id mx ml top rel (prune drop n) = walk ie id mx ml top rel n.
Proof.
  intros n. induction n as [name size body|name ok cs IH] using node_ind';
    intros rel; [reflexivity|].
  rewrite prune_dir_eq, !walk_dir_unfold. destruct ok; [|reflexivity]. simpl negb.
  rewrite process_files_prune.
  assert (Hsub : concat_mapM (walk_sub ie id mx ml top rel)
                   (map (prune drop) (filter (fun c => negb (drop c)) cs))
                 = concat_mapM (walk_sub ie id mx ml top rel) cs).
  { induction cs as [|c cs IHcs]; [reflexivity|].
    inversion IH as [|? ? Hc Hcs]; subst. simpl.
    destruct (drop c) eqn:D; simpl.
    - assert (Hs : walk_sub ie id mx ml top rel c = ret []).
      { destruct c as [|d ok' cs']; [reflexivity|]. simpl.
        pose proof (drop_not_walked _ D eq_refl) as Hid. simpl in Hid.
        rewrite Hid. reflexivity. }
      rewrite Hs, bind_ret, IHcs by exact Hcs. symmetry. apply bind_ret_r.
    - rewrite IHcs by exact Hcs. f_equal.
      destruct c as [|d ok' cs']; [reflexivity|].
      unfold walk_sub. rewrite <- (Hc (rel ++ [d])%list). reflexivity. }
  rewrite Hsub. reflexivity.
Qed.

End WalkPrune.

(** ** Pruning and the tree renderer *)

Section TreePrune.
Variables (ign keep : string -> bool) (top : string) (drop : node -> bool).
Hypothesis drop_ignored : forall c, drop c = true -> ign (node_name c) = true.


Lemma walk_directory_dir_unfold : forall path name ok cs prefix,
  walk_directory ign keep top path (Dir name ok cs) prefix =
    (tell (EvListDir path) ;;;
     if negb ok then raise (os_error "13" "Permission denied" (full_path top path))
     else render_entries keep path prefix
            (filter (fun e => negb (ign (item_name e)))
               (sort_by_name item_name (map (tree_item_of ign keep top path) cs)))).
Proof. reflexivity. Qed.

Lemma walk_directory_prune : forall n path prefix,
  walk_directory ign keep top path (prune drop n) prefix =
  walk_directory ign keep top path n prefix.
Proof.
  intros n. induction n as [name size body|name ok cs IH] using node_ind';
    intros path prefix; [reflexivity|].
  rewrite prune_dir_eq, !walk_directory_dir_unfold. destruct ok; [|reflexivity].
  simpl negb. f_equal. f_equal.
  assert (Hitems : map (tree_item_of ign keep top path)
                     (map (prune drop) (filter (fun c => negb (drop c)) cs))
                   = map (tree_item_of ign keep top path) (filter (fun c => negb (drop c)) cs)).
  { rewrite map_map. apply map_ext_in. intros c Hc.
    apply filter_In in Hc as [Hc _]. rewrite Forall_forall in IH.
    unfold tree_item_of. rewrite prune_name, prune_is_dir. f_equal.
    apply functional_extensionality. intros p. apply IH, Hc. }
  rewrite Hitems.
  rewrite <- !(map_sort node_name item_name (tree_item_of ign keep top path)) by reflexivity.
  rewrite !filter_map_comm.
  rewrite <- filter_sort, filter_filter_weaker; [reflexivity|].
  intros c Hc. simpl in Hc. destruct (drop c) eqn:D; [|reflexivity].
  rewrite (drop_ignored c D) in Hc. discriminate.
Qed.

Lemma directory_tree_prune : forall n,
  directory_tree ign keep top (prune drop n) = directory_tree ign keep top n.
Proof. intros. unfold directory_tree. rewrite walk_directory_prune. reflexivity. Qed.

End TreePrune.

(** ** Directories reached by the walk *)


Lemma visited_dirs_reaches : forall id n p x,
  In (p, x) (visited_dirs id n) <-> reaches id n p x.
Proof.
  intros id n. induction n as [name size body|name ok cs IH] using node_ind';
    intros p x; simpl.
  - split; [tauto|intros H; inversion H].
  - split.
    + intros [H|H].
      * inversion H; subst. constructor.
      * destruct ok; [|contradiction].
        apply in_flat_map in H as [c [Hc Hin]].
        destruct c as [|d ok' cs']; [contradiction|].
        destruct (id d) eqn:Hd; [contradiction|].
        apply in_map_iff in Hin as [[p' x'] [Heq Hin]]. simpl in Heq.
        inversion Heq; subst.
        rewrite Forall_forall in IH.
        eapply reaches_sub; [exact Hc|exact Hd|]. apply (IH _ Hc), Hin.
    + intros H. inversion H as [|name' cs0 d ok' cs' p0 x' Hc Hd Hr]; subst;
        [left; reflexivity|].
      right. apply in_flat_map. exists (Dir d ok' cs'). split; [exact Hc|].
      cbv beta iota. rewrite Hd.
      apply in_map_iff. exists (p0, x). split; [reflexivity|].
      rewrite Forall_forall in IH. apply (IH _ Hc), Hr.
Qed.

(** ** Facts about the loops of the walker *)


Lemma concat_mapM_Ok_in {A B} (f : A -> M (list B)) l out log x :
  concat_mapM f l = (Ok out, log) -> In x l ->
  exists r l', f x = (Ok r, l') /\ incl r out.
Proof.
  revert out log. induction l as [|y l IH]; intros out log H Hx; [destruct Hx|].
  simpl in H. apply bind_Ok in H as [r [l1 [l2 [Hy [H _]]]]].
  apply bind_Ok in H as [rs [l3 [l4 [Hl [H _]]]]]. inversion H; subst.
  destruct Hx as [<-|Hx].
  - exists r, l1. split; [exact Hy|]. intros z Hz. apply in_or_app. auto.
  - destruct (IH _ _ Hl Hx) as [r' [l' [Hf Hi]]]. exists r', l'. split; [exact Hf|].
    intros z Hz. apply in_or_app. auto.
Qed.

Lemma concat_mapM_Ok_out {A B} (f : A -> M (list B)) l out log z :
  concat_mapM f l = (Ok out, log) -> In z out ->
  exists x r l', In x l /\ f x = (Ok r, l') /\ In z r.
Proof.
  revert out log. induction l as [|y l IH]; intros out log H Hz.
  - inversion H; subst. destruct Hz.
  - simpl in H. apply bind_Ok in H as [r [l1 [l2 [Hy [H _]]]]].
    apply bind_Ok in H as [rs [l3 [l4 [Hl [H _]]]]]. inversion H; subst.
    apply in_app_or in Hz as [Hz|Hz].
    + exists y, r, l1. simpl. auto.
    + destruct (IH _ _ Hl Hz) as [x [r' [l' [Hx [Hf Hr]]]]].
      exists x, r', l'. simpl. auto.
Qed.

Lemma summarize_text_file_Ok : forall dir name body max_lines,
  exists s l, summarize_text_file dir name body max_lines = (Ok s, l).
Proof.
  intros. unfold summarize_text_file, catch.
  destruct (tell (EvOpen dir name) ;;;
            summarize_loop dir name max_lines 0 (file_lines body) (read_error body))
    as [[a|e] l1]; simpl; eexists; eexists; reflexivity.
Qed.

Lemma process_file_Ok_shape : forall ie mx ml top dir c r l,
  process_file ie mx ml top dir c = (Ok r, l) ->
  (eligible ie c = true -> exists s, r = Some s /\ fs_name s = node_name c) /\
  (eligible ie c = false -> r = None).
Proof.
  intros ie mx ml top dir [name size body|d ok cs] r l H; simpl in *.
  - destruct (ie (py_lower (splitext_ext name))); simpl.
    + inversion H; subst. split; [discriminate|reflexivity].
    + split; [|discriminate]. intros _.
      apply bind_Ok in H as [sz [l1 [l2 [_ [H _]]]]].
      destruct (mx <? sz)%Z.
      * inversion H; subst. eexists; split; reflexivity.
      * apply bind_Ok in H as [s [l3 [l4 [_ [H _]]]]].
        inversion H; subst. eexists; split; reflexivity.
  - inversion H; subst. split; [discriminate|reflexivity].
Qed.

Lemma process_files_Ok : forall ie mx ml top dir cs fsums l,
  process_files ie mx ml top dir cs = (Ok fsums, l) ->
  (forall c, In c cs -> exists r l', process_file ie mx ml top dir c = (Ok r, l') /\
                         forall s, r = Some s -> In s fsums) /\
  (fsums <> [] <-> exists c, In c cs /\ eligible ie c = true).
Proof.
  intros ie mx ml top dir cs. induction cs as [|c cs IH]; intros fsums l H.
  - inversion H; subst. split; [intros c []|]. split; [congruence|].
    intros [c [[] _]].
  - simpl in H. apply bind_Ok in H as [r [l1 [l2 [Hc [H _]]]]].
    apply bind_Ok in H as [rs [l3 [l4 [Hcs [H _]]]]]. inversion H; subst.
    destruct (IH _ _ Hcs) as [Hin Hne].
    destruct (process_file_Ok_shape _ _ _ _ _ _ _ _ Hc) as [Hel Hnel].
    split.
    + intros c' [<-|Hc'].
      * exists r, l1. split; [exact Hc|]. intros s ->. left. reflexivity.
      * destruct (Hin c' Hc') as [r' [l' [H1 H2]]]. exists r', l'. split; [exact H1|].
        intros s Hs. specialize (H2 s Hs). destruct r; [right|]; exact H2.
    + destruct (eligible ie c) eqn:E.
      * destruct (Hel eq_refl) as [s [-> _]]. split; [|congruence].
        intros _. exists c. simpl. auto.
      * rewrite (Hnel eq_refl). rewrite Hne. split.
        -- intros [c' [Hc' Hx]]. exists c'. simpl. auto.
        -- intros [c' [[<-|Hc'] Hx]]; [congruence|]. exists c'. auto.
Qed.

(** ** Entries of the walker's result *)

Section WalkEntries.
Variables (ie id : string -> bool) (mx ml : Z) (top : string).

Lemma walk_complete : forall n p x, reaches id n p x ->
  forall rel out log, walk ie id mx ml top rel n = (Ok out, log) ->
  forall name cs, x = Dir name true cs ->
  exists fsums l, process_files ie mx ml top (rel ++ p)%list cs = (Ok fsums, l) /\
                  (fsums <> [] -> In (DirEntry (rel ++ p)%list fsums) out).
Proof.
  induction 1 as [name ok cs|name cs d ok' cs' p x Hc Hd Hr IH];
    intros rel out log H name0 cs0 Hx.
  - inversion Hx; subst. rewrite walk_dir_unfold in H.
    apply bind_Ok in H as [u [l1 [l2 [_ [H _]]]]]. simpl in H.
    apply bind_Ok in H as [fsums [l3 [l4 [Hf [H _]]]]].
    apply bind_Ok in H as [subs [l5 [l6 [_ [H _]]]]]. inversion H; subst.
    rewrite app_nil_r. exists fsums, l3. split; [exact Hf|].
    intros Hne. destruct fsums as [|f fs]; [congruence|]. simpl. auto.
  - rewrite walk_dir_unfold in H.
    apply bind_Ok in H as [u [l1 [l2 [_ [H _]]]]]. simpl in H.
    apply bind_Ok in H as [fsums [l3 [l4 [_ [H _]]]]].
    apply bind_Ok in H as [subs [l5 [l6 [Hs [H _]]]]]. inversion H; subst.
    destruct (concat_mapM_Ok_in _ _ _ _ _ Hs Hc) as [r [l' [Hw Hincl]]].
    simpl in Hw. rewrite Hd in Hw.
    destruct (IH _ _ _ Hw _ _ eq_refl) as [fs [l [Hp Hin]]].
    rewrite <- app_assoc in Hp, Hin. simpl in Hp, Hin.
    exists fs, l. split; [exact Hp|]. intros Hne. apply in_or_app. right.
    apply Hincl, Hin, Hne.
Qed.

Lemma walk_sound : forall n rel out log e,
  walk ie id mx ml top rel n = (Ok out, log) -> In e out ->
  exists p name cs l, reaches id n p (Dir name true cs) /\
    directory e = (rel ++ p)%list /\
    process_files ie mx ml top (rel ++ p)%list cs = (Ok (files e), l) /\
    files e <> [].
Proof.
  intros n. induction n as [name size body|name ok cs IH] using node_ind';
    intros rel out log e H He.
  - inversion H; subst. destruct He.
  - rewrite walk_dir_unfold in H.
    apply bind_Ok in H as [u [l1 [l2 [_ [H _]]]]].
    destruct ok; simpl in H; [|inversion H; subst; destruct He].
    apply bind_Ok in H as [fsums [l3 [l4 [Hf [H _]]]]].
    apply bind_Ok in H as [subs [l5 [l6 [Hs [H _]]]]]. inversion H; subst.
    apply in_app_or in He as [He|He].
    + destruct fsums as [|f fs]; [destruct He|]. destruct He as [<-|[]].
      exists [], name, cs, l3. rewrite app_nil_r. simpl.
      repeat split; [constructor|exact Hf|congruence].
    + destruct (concat_mapM_Ok_out _ _ _ _ _ Hs He) as [c [r [l' [Hc [Hw Hr]]]]].
      destruct c as [|d ok' cs']; [inversion Hw; subst; destruct Hr|].
      simpl in Hw. destruct (id d) eqn:Hd; [inversion Hw; subst; destruct Hr|].
      rewrite Forall_forall in IH.
      destruct (IH _ Hc _ _ _ _ Hw Hr) as [p [name' [cs0 [l [Hre [Hdir [Hp Hne]]]]]]].
      exists (d :: p), name', cs0, l. rewrite <- app_assoc in Hdir, Hp. simpl in Hdir, Hp.
      repeat split; [|exact Hdir|exact Hp|exact Hne].
      eapply reaches_sub; eassumption.
Qed.

End WalkEntries.



(** ** C2 *)

(** C2: a file the walker reaches, whose extension is not ignored and whose
    size is above the limit, is handled by one size query and no open or
    read, and is recorded, in its directory's entry, with the placeholder
    summary carrying its size. *)
Theorem oversized_file_placeholder :
  forall ie id mx ml top root p name cs fname size body,
  In (p, Dir name true cs) (visited_dirs id root) ->
  In (File fname (Some size) body) cs ->
  ie (py_lower (splitext_ext fname)) = false ->
  (mx < size)%Z ->
  process_file ie mx ml top p (File fname (Some size) body) =
    (Ok (Some (FileSummary fname ("File size (" ++ show_Z size
                 ++ " bytes) exceeds limit; skipping content."))),
     [EvGetSize p fname]) /\
  forall out log, walk ie id mx ml top [] root = (Ok out, log) ->
    exists e, In e out /\ directory e = p /\
      In (FileSummary fname ("File size (" ++ show_Z size
            ++ " bytes) exceeds limit; skipping content.")) (files e).
Proof.
  intros ie id mx ml top root p name cs fname size body Hv Hin Hie Hsize.
  assert (Hpf : process_file ie mx ml top p (File fname (Some size) body) =
    (Ok (Some (FileSummary fname (size_placeholder size))), [EvGetSize p fname])).
  { simpl. rewrite Hie. simpl. apply Z.ltb_lt in Hsize. rewrite Hsize. reflexivity. }
  split; [exact Hpf|]. intros out log Hw.
  apply visited_dirs_reaches in Hv.
  destruct (walk_complete ie id mx ml top _ _ _ Hv _ _ _ Hw _ _ eq_refl)
    as [fsums [l [Hp Hent]]]. simpl in Hp, Hent.
  destruct (process_files_Ok _ _ _ _ _ _ _ _ Hp) as [Hall _].
  destruct (Hall _ Hin) as [r [l' [Hr Hs]]]. rewrite Hpf in Hr. inversion Hr; subst.
  specialize (Hs _ eq_refl).
  exists (DirEntry p fsums). split; [|split; [reflexivity|exact Hs]].
  apply Hent. destruct fsums; [destruct Hs|discriminate].
Qed.


Lemma oversized_file_placeholder_witness :
  (exists out log,
     walk Generator.ignored_ext Generator.ignored_dir Generator.MAX_FILE_SIZE_BYTES
       Generator.MAX_SUMMARY_LINES "repo" [] big_file_repo = (Ok out, log) /\
     exists e, In e out /\ directory e = ["data"] /\
       In (FileSummary "dump.sql" ("File size (" ++ show_Z 250000%Z
             ++ " bytes) exceeds limit; skipping content.")) (files e)).
Proof.
  destruct (oversized_file_placeholder Generator.ignored_ext Generator.ignored_dir
              Generator.MAX_FILE_SIZE_BYTES Generator.MAX_SUMMARY_LINES "repo" big_file_repo
              ["data"] "data" [File "dump.sql" (Some 250000%Z) (Contents "INSERT" None)]
              "dump.sql" 250000%Z (Contents "INSERT" None))
    as [_ Hw].
  - simpl. auto.
  - simpl. auto.
  - reflexivity.
  - vm_compute. reflexivity.
  - eexists; eexists; split; [reflexivity|]. eapply Hw. reflexivity.
Defined.

(** ** C3 *)

(** C3: in both modules, the tree and the repository summary (results and
    I/O performed) are the same as if every directory named in
    [ignored_dirs], below the root, were absent with all its contents. *)
Theorem ignored_dirs_never_visited :
  (forall root_dir root,
     Generator.create_directory_tree root_dir
       (prune (ignored_subdir Generator.ignored_dir) root)
     = Generator.create_directory_tree root_dir root /\
     Generator.create_repo_summary root_dir
       (prune (ignored_subdir Generator.ignored_dir) root)
     = Generator.create_repo_summary root_dir root) /\
  (forall root_dir root ignored_dirs ignored_extensions mx ml,
     let ign := fun d => mem d ignored_dirs in
     Repoforge.create_directory_tree root_dir (prune (ignored_subdir ign) root) ignored_dirs
     = Repoforge.create_directory_tree root_dir root ignored_dirs /\
     Repoforge.create_repo_summary root_dir (prune (ignored_subdir ign) root)
       ignored_dirs ignored_extensions mx ml
     = Repoforge.create_repo_summary root_dir root ignored_dirs ignored_extensions mx ml).
Proof.
  assert (Hdrop : forall (ign : string -> bool) c,
             ignored_subdir ign c = true -> ign (node_name c) = true).
  { intros ign c H. apply andb_prop in H. tauto. }
  assert (Hskip : forall ie mx ml top (ign : string -> bool) c dir,
             ignored_subdir ign c = true -> process_file ie mx ml top dir c = ret None).
  { intros ie mx ml top ign [] dir H; [discriminate|reflexivity]. }
  split.
  - intros root_dir root. split.
    + unfold Generator.create_directory_tree. apply directory_tree_prune, Hdrop.
    + unfold Generator.create_repo_summary.
      apply walk_prune; [apply Hskip|intros c H _; apply Hdrop, H].
  - intros root_dir root ignored_dirs ignored_extensions mx ml ign. split.
    + unfold Repoforge.create_directory_tree. apply directory_tree_prune, Hdrop.
    + unfold Repoforge.create_repo_summary.
      apply walk_prune; [apply Hskip|intros c H _; exact (Hdrop ign c H)].
Qed.

(** ** C5 *)

(** C5: after a walk that completes, a path has an entry in the summary
    exactly when the walk reaches a listable directory at that path with
    at least one eligible file (a file whose extension is not ignored,
    oversized ones included); which directories are reached does not
    depend on their files, so the subdirectories of a directory without
    eligible files are still walked. *)
Theorem dir_entry_iff_eligible_file : forall ie id mx ml top root out log,
  walk ie id mx ml top [] root = (Ok out, log) ->
  forall p,
    (exists e, In e out /\ directory e = p) <->
    (exists name cs, In (p, Dir name true cs) (visited_dirs id root) /\
                     exists c, In c cs /\ eligible ie c = true).
Proof.
  intros ie id mx ml top root out log Hw p. split.
  - intros [e [He <-]].
    destruct (walk_sound ie id mx ml top _ _ _ _ _ Hw He)
      as [p' [name [cs [l [Hre [Hdir [Hp Hne]]]]]]].
    simpl in Hdir, Hp. rewrite Hdir.
    exists name, cs. split; [apply visited_dirs_reaches, Hre|].
    apply (process_files_Ok _ _ _ _ _ _ _ _ Hp), Hne.
  - intros [name [cs [Hv Hel]]]. apply visited_dirs_reaches in Hv.
    destruct (walk_complete ie id mx ml top _ _ _ Hv _ _ _ Hw _ _ eq_refl)
      as [fsums [l [Hp Hent]]]. simpl in Hp, Hent.
    exists (DirEntry p fsums). split; [|reflexivity].
    apply Hent, (process_files_Ok _ _ _ _ _ _ _ _ Hp), Hel.
Qed.


Lemma dir_entry_iff_eligible_file_witness :
  exists out log,
    walk Generator.ignored_ext Generator.ignored_dir Generator.MAX_FILE_SIZE_BYTES
      Generator.MAX_SUMMARY_LINES "repo" [] image_repo = (Ok out, log) /\
    forall p,
      (exists e, In e out /\ directory e = p) <->
      (exists name cs, In (p, Dir name true cs)
                          (visited_dirs Generator.ignored_dir image_repo) /\
                       exists c, In c cs /\ eligible Generator.ignored_ext c = true).
Proof.
  eexists; eexists; split; [reflexivity|].
  eapply (dir_entry_iff_eligible_file Generator.ignored_ext Generator.ignored_dir
            Generator.MAX_FILE_SIZE_BYTES Generator.MAX_SUMMARY_LINES "repo" image_repo).
  reflexivity.
Defined.

(** ** C6 *)

(** C6 holds for an ignored-extension set of lower-case extensions (both
    modules' defaults are): a file is skipped by the loop body without any
    I/O (no size query, no summary) exactly when its [os.path.splitext]
    extension, leading dot included, equals an element of the set up to
    case, and the walker's result and I/O are those of the same tree
    without such files. *)
Theorem ignored_extension_files_dropped :
  forall iexts id mx ml top rel root dir name size body,
  Forall (fun x => py_lower x = x) iexts ->
  (ci_mem (splitext_ext name) iexts = true <->
   process_file (fun e => mem e iexts) mx ml top dir (File name size body) = (Ok None, [])) /\
  walk (fun e => mem e iexts) id mx ml top rel (prune (ci_ignored_file iexts) root)
  = walk (fun e => mem e iexts) id mx ml top rel root.
Proof.
  intros iexts id mx ml top rel root dir name size body Hlow.
  assert (Hci : forall n, ci_mem (splitext_ext n) iexts = mem (py_lower (splitext_ext n)) iexts)
    by (intros n; apply ci_mem_lower, Hlow).
  split.
  - rewrite Hci. simpl. split.
    + intros H. rewrite H. reflexivity.
    + destruct (mem (py_lower (splitext_ext name)) iexts); [reflexivity|].
      unfold getsize. destruct size as [s|]; simpl;
        [destruct (mx <? s)%Z; simpl; [discriminate|]|discriminate].
      destruct (summarize_text_file dir name body ml) as [[u|u] l]; simpl; discriminate.
  - apply walk_prune.
    + intros [n sz b|d ok cs] dir' H; [|reflexivity]. simpl in H |- *.
      rewrite Hci in H. rewrite H. reflexivity.
    + intros [] H Hd; discriminate.
Qed.

Lemma ignored_extension_files_dropped_witness :
  Forall (fun x => py_lower x = x) Generator.IGNORED_EXTENSIONS /\
  (ci_mem (splitext_ext "Logo.PNG") Generator.IGNORED_EXTENSIONS = true <->
   process_file Generator.ignored_ext 100000 500 "repo" [] (File "Logo.PNG" (Some 3%Z)
     (Contents "PNG" None)) = (Ok None, [])).
Proof.
  assert (H : Forall (fun x => py_lower x = x) Generator.IGNORED_EXTENSIONS)
    by (repeat constructor).
  split; [exact H|].
  exact (proj1 (ignored_extension_files_dropped Generator.IGNORED_EXTENSIONS
                  Generator.ignored_dir 100000 500 "repo" [] image_repo [] "Logo.PNG"
                  (Some 3%Z) (Contents "PNG" None) H)).
Defined.

(** C6 fails for a set with an upper-case element, which
    [create_repo_summary] of repoforge.py accepts: with
    [ignored_extensions = {".PNG"}], the extension of [a.PNG] matches it
    up to case, yet the file is kept, its size queried and its content
    read, because only the file's side is lower-cased. *)
Lemma uppercase_ignored_extension_kept :
  splitext_ext "a.PNG" = ".PNG" /\
  ci_mem ".PNG" [".PNG"] = true /\
  Repoforge.create_repo_summary "repo" (Dir "repo" true [text_file "a.PNG" "x"])
    [] [".PNG"] 100 500
  = (Ok [DirEntry [] [FileSummary "a.PNG" "x"]],
     [EvListDir []; EvGetSize [] "a.PNG"; EvOpen [] "a.PNG"; EvReadLine [] "a.PNG"]).
Proof. vm_compute. repeat split. Qed.

(** ** C9 *)

(** C9: the tree view drops every entry named in [ignored_dirs], files
    included (in both modules, whatever the file filter): it is the tree of
    the same root without those entries.  The walker filters names of
    directories only: a reached file with such a name, whose extension is
    not ignored, gets a summary in a completed walk. *)
Theorem tree_hides_files_named_like_ignored_dirs :
  forall ie id keep mx ml root_dir root out log p name cs fname size body,
  walk ie id mx ml root_dir [] root = (Ok out, log) ->
  In (p, Dir name true cs) (visited_dirs id root) ->
  In (File fname size body) cs ->
  id fname = true ->
  ie (py_lower (splitext_ext fname)) = false ->
  directory_tree id keep root_dir (prune (ignored_entry id) root)
    = directory_tree id keep root_dir root /\
  exists e s, In e out /\ directory e = p /\ In (FileSummary fname s) (files e).
Proof.
  intros ie id keep mx ml root_dir root out log p name cs fname size body
    Hw Hv Hin Hid Hie.
  split; [apply (directory_tree_prune id keep root_dir); intros c H; exact H|].
  apply visited_dirs_reaches in Hv.
  destruct (walk_complete ie id mx ml root_dir _ _ _ Hv _ _ _ Hw _ _ eq_refl)
    as [fsums [l [Hp Hent]]]. simpl in Hp, Hent.
  destruct (process_files_Ok _ _ _ _ _ _ _ _ Hp) as [Hall _].
  destruct (Hall _ Hin) as [r [l' [Hr Hs]]].
  destruct (process_file_Ok_shape _ _ _ _ _ _ _ _ Hr) as [Hel _].
  simpl in Hel. rewrite Hie in Hel. destruct (Hel eq_refl) as [[n s] [-> Hn]].
  simpl in Hn. subst n. specialize (Hs _ eq_refl).
  exists (DirEntry p fsums), s. split; [|split; [reflexivity|exact Hs]].
  apply Hent. destruct fsums; [destruct Hs|discriminate].
Qed.


Lemma tree_hides_files_named_like_ignored_dirs_witness :
  exists out log,
    walk Generator.ignored_ext Generator.ignored_dir Generator.MAX_FILE_SIZE_BYTES
      Generator.MAX_SUMMARY_LINES "repo" [] dotgit_file_repo = (Ok out, log) /\
    directory_tree Generator.ignored_dir (fun _ => true) "repo"
      (prune (ignored_entry Generator.ignored_dir) dotgit_file_repo)
    = directory_tree Generator.ignored_dir (fun _ => true) "repo" dotgit_file_repo /\
    exists e s, In e out /\ directory e = [] /\ In (FileSummary ".git" s) (files e).
Proof.
  eexists; eexists; split; [reflexivity|].
  eapply (tree_hides_files_named_like_ignored_dirs Generator.ignored_ext
            Generator.ignored_dir (fun _ => true) Generator.MAX_FILE_SIZE_BYTES
            Generator.MAX_SUMMARY_LINES "repo" dotgit_file_repo _ _ []
            "repo" [text_file ".git" "gitdir: ../main/.git"; text_file "a.txt" "hi"]
            ".git" _ (Contents "gitdir: ../main/.git" None)).
  - reflexivity.
  - simpl. auto.
  - unfold text_file. left. reflexivity.
  - reflexivity.
  - reflexivity.
Defined.

(** ** C8 *)


Lemma mem_In : forall x l, mem x l = true <-> In x l.
Proof.
  intros x l. unfold mem. rewrite existsb_exists. split.
  - intros [y [Hy Hxy]]. apply String.eqb_eq in Hxy. subst. exact Hy.
  - intros Hx. exists x. split; [exact Hx|apply String.eqb_refl].
Qed.

Lemma same_elems_mem : forall l1 l2,
  same_elems l1 l2 = true -> (fun x => mem x l1) = (fun x => mem x l2).
Proof.
  intros l1 l2 H. unfold same_elems in H. apply andb_true_iff in H as [H1 H2].
  rewrite forallb_forall in H1, H2. apply functional_extensionality. intros x.
  destruct (mem x l1) eqn:E1, (mem x l2) eqn:E2; try reflexivity.
  - apply mem_In, H1 in E1. congruence.
  - apply mem_In, H2 in E2. congruence.
Qed.

(** C8: [generate_prompt] is a function of the directory tree (its
    contents and its listing order) and of the arguments: its output and
    its I/O are the same for two calls whose ignored-name and
    ignored-extension sets have the same elements, so the iteration order
    of those sets (which may vary between interpreter runs) plays no
    part. *)
Theorem generate_prompt_deterministic :
  forall repo_dir at_path sys user mx ml d1 d2 e1 e2,
  same_elems d1 d2 = true -> same_elems e1 e2 = true ->
  Repoforge.generate_prompt repo_dir at_path sys user mx ml d1 e1
  = Repoforge.generate_prompt repo_dir at_path sys user mx ml d2 e2.
Proof.
  intros repo_dir at_path sys user mx ml d1 d2 e1 e2 Hd He.
  unfold Repoforge.generate_prompt, Repoforge.create_directory_tree,
    Repoforge.create_repo_summary.
  rewrite (same_elems_mem d1 d2 Hd), (same_elems_mem e1 e2 He). reflexivity.
Qed.

Lemma generate_prompt_deterministic_witness :
  same_elems Repoforge.DEFAULT_IGNORED_DIRS
    [".vscode"; ".idea"; "__pycache__"; ".git"; ".idea"] = true /\
  same_elems Repoforge.DEFAULT_IGNORED_EXTENSIONS
    (rev Repoforge.DEFAULT_IGNORED_EXTENSIONS) = true /\
  Repoforge.generate_prompt "repo" (Some sample_repo) None None 100 500
    Repoforge.DEFAULT_IGNORED_DIRS Repoforge.DEFAULT_IGNORED_EXTENSIONS
  = Repoforge.generate_prompt "repo" (Some sample_repo) None None 100 500
      [".vscode"; ".idea"; "__pycache__"; ".git"; ".idea"]
      (rev Repoforge.DEFAULT_IGNORED_EXTENSIONS).
Proof.
  split; [reflexivity|]. split; [reflexivity|].
  apply generate_prompt_deterministic; reflexivity.
Defined.

(** ** Sorting keeps the elements *)

Lemma In_sort {A} (key : A -> string) : forall l z,
  In z (sort_by_name key l) <-> In z l.
Proof.
  intros l z. induction l as [|x l IH]; simpl; [tauto|].
  rewrite In_insert, IH. intuition congruence.
Qed.

(** * Further properties of the code *)

(** ** Lines, splitting and joining *)

Lemma py_lines_nil : forall s, py_lines s = [] -> s = EmptyString.
Proof.
  intros [|c rest]; simpl; [reflexivity|].
  destruct (Ascii.eqb c "010"); [discriminate|]. destruct (py_lines rest); discriminate.
Qed.

Lemma py_lines_nonempty : forall s, Forall (fun l => l <> EmptyString) (py_lines s).
Proof.
  induction s as [|c rest IH]; simpl; [constructor|].
  destruct (Ascii.eqb c "010").
  - constructor; [discriminate|exact IH].
  - destruct (py_lines rest) as [|l ls].
    + constructor; [discriminate|constructor].
    + inversion IH; subst. constructor; [discriminate|assumption].
Qed.

Lemma py_join_cons_char : forall c x xs,
  py_join nl (String c x :: xs) = String c (py_join nl (x :: xs)).
Proof. intros c x [|y ys]; reflexivity. Qed.

Lemma chomp_cons : forall c s, s <> EmptyString -> chomp (String c s) = String c (chomp s).
Proof. intros c [|c' s] H; [contradiction|reflexivity]. Qed.

Lemma join_chomp_lines : forall s, py_join nl (map chomp (py_lines s)) = chomp s.
Proof.
  induction s as [|c rest IH]; [reflexivity|].
  assert (Hne := py_lines_nonempty rest).
  destruct (py_lines rest) as [|l ls] eqn:E.
  - apply py_lines_nil in E. subst rest. simpl py_lines.
    destruct (Ascii.eqb c "010"); reflexivity.
  - assert (Hr : rest <> EmptyString) by (intros ->; discriminate E).
    inversion Hne as [|? ? Hl _]; subst.
    rewrite (chomp_cons c rest Hr), <- IH.
    simpl py_lines. rewrite E. destruct (Ascii.eqb_spec c "010") as [->|Hc].
    + reflexivity.
    + change (map chomp (String c l :: ls)) with (chomp (String c l) :: map chomp ls). rewrite chomp_cons by exact Hl. apply py_join_cons_char.
Qed.

Lemma py_split_nl_nonnil : forall s, py_split_nl s <> [].
Proof.
  intros [|c rest]; simpl; [discriminate|].
  destruct (Ascii.eqb c "010"); [discriminate|]. destruct (py_split_nl rest); discriminate.
Qed.

Lemma py_split_nl_no_nl : forall s, Forall no_nl (py_split_nl s).
Proof.
  induction s as [|c rest IH]; simpl; [constructor; [exact I|constructor]|].
  destruct (Ascii.eqb_spec c "010") as [->|Hc].
  - constructor; [exact I|exact IH].
  - destruct (py_split_nl rest) as [|l ls].
    + constructor; [simpl; tauto|constructor].
    + inversion IH; subst. constructor; [simpl; tauto|assumption].
Qed.

Lemma join_split_nl : forall s, py_join nl (py_split_nl s) = s.
Proof.
  induction s as [|c rest IH]; [reflexivity|]. simpl.
  assert (Hne := py_split_nl_nonnil rest).
  destruct (Ascii.eqb_spec c "010") as [->|Hc].
  - destruct (py_split_nl rest) as [|l ls]; [congruence|].
    change (py_join nl (EmptyString :: l :: ls)) with (nl ++ py_join nl (l :: ls)).
    rewrite IH. reflexivity.
  - destruct (py_split_nl rest) as [|l ls]; [congruence|].
    rewrite py_join_cons_char, IH. reflexivity.
Qed.

Lemma split_no_nl : forall x, no_nl x -> py_split_nl x = [x].
Proof.
  induction x as [|c x IH]; [reflexivity|]. simpl. intros [Hc Hx].
  destruct (Ascii.eqb_spec c "010"); [contradiction|]. rewrite IH by exact Hx. reflexivity.
Qed.

Lemma split_app_nl : forall x r,
  no_nl x -> py_split_nl (x ++ String "010" r) = x :: py_split_nl r.
Proof.
  induction x as [|c x IH]; [reflexivity|]. simpl. intros r [Hc Hx].
  destruct (Ascii.eqb_spec c "010"); [contradiction|]. rewrite IH by exact Hx. reflexivity.
Qed.

Lemma split_join_nl : forall ls, ls <> [] -> Forall no_nl ls -> py_split_nl (py_join nl ls) = ls.
Proof.
  induction ls as [|x ls IH]; intros Hne Hall; [congruence|].
  inversion Hall; subst. destruct ls as [|y ys].
  - apply split_no_nl. assumption.
  - change (py_join nl (x :: y :: ys)) with (x ++ String "010" (py_join nl (y :: ys))).
    rewrite split_app_nl, IH by (discriminate || assumption). reflexivity.
Qed.

Lemma chomp_shape_no_nl : forall l, line_shape l -> no_nl (chomp l).
Proof.
  intros l [Hl|[l' [Hl' ->]]]; [rewrite chomp_no_nl|rewrite chomp_line]; assumption.
Qed.

Lemma no_nl_marker : no_nl truncation_marker.
Proof. simpl. repeat split; discriminate. Qed.

(** ** Characters absent from a summary *)

Lemma no_char_app : forall c a b, no_char c (a ++ b) = no_char c a && no_char c b.
Proof.
  intros c a b. induction a as [|c' a IH]; [reflexivity|]. simpl.
  rewrite IH. apply andb_assoc.
Qed.

Lemma no_char_cons : forall c c' s,
  no_char c (String c' s) = negb (Ascii.eqb c' c) && no_char c s.
Proof. reflexivity. Qed.

Lemma translate_newlines_no_cr : forall n s, (String.length s <= n)%nat ->
  no_char "013" (translate_newlines s) = true.
Proof.
  induction n as [|n IH]; intros [|c rest] Hlen; try reflexivity;
    [simpl in Hlen; lia|].
  simpl in Hlen. simpl translate_newlines.
  destruct (Ascii.eqb_spec c "013") as [->|Hc].
  - destruct rest as [|c' rest'].
    + reflexivity.
    + simpl in Hlen.
      destruct (Ascii.eqb c' "010"); rewrite no_char_cons; apply andb_true_iff;
        (split; [reflexivity|apply IH; simpl; lia]).
  - rewrite no_char_cons. apply andb_true_iff. split.
    + apply negb_true_iff, Ascii.eqb_neq. exact Hc.
    + apply IH. lia.
Qed.

Lemma no_char_py_lines : forall c s, no_char c s = true ->
  Forall (fun l => no_char c l = true) (py_lines s).
Proof.
  intros c s. induction s as [|c' rest IH]; simpl; intros H; [constructor|].
  apply andb_true_iff in H as [Hc' Hr]. specialize (IH Hr).
  destruct (Ascii.eqb c' "010").
  - constructor; [simpl; rewrite Hc'; reflexivity|exact IH].
  - destruct (py_lines rest) as [|l ls].
    + constructor; [simpl; rewrite Hc'; reflexivity|constructor].
    + inversion IH; subst. constructor; [simpl; rewrite Hc'; assumption|assumption].
Qed.

Lemma no_char_rstrip_nl : forall c l, no_char c l = true -> no_char c (rstrip_nl l) = true.
Proof.
  intros c l. induction l as [|c' l IH]; simpl; intros H; [reflexivity|].
  apply andb_true_iff in H as [Hc' Hr].
  destruct (Ascii.eqb c' "010" && String.eqb (rstrip_nl l) EmptyString); [reflexivity|].
  simpl. rewrite Hc'. apply IH, Hr.
Qed.

Lemma no_char_join : forall c sep ls, no_char c sep = true ->
  Forall (fun l => no_char c l = true) ls -> no_char c (py_join sep ls) = true.
Proof.
  intros c sep ls Hsep. induction 1 as [|x ls Hx Hls IH]; [reflexivity|].
  destruct ls as [|y ys]; [exact Hx|].
  change (py_join sep (x :: y :: ys)) with (x ++ sep ++ py_join sep (y :: ys)).
  rewrite !no_char_app, Hx, Hsep, IH. reflexivity.
Qed.

(** ** The reading loop when the file raises *)

Lemma summarize_loop_err_reached : forall dir name max e ls i,
  (length ls <= Z.to_nat (max - i))%nat ->
  summarize_loop dir name max i ls (Some e) =
    (Err e, repeat (EvReadLine dir name) (length ls)).
Proof.
  intros dir name max e ls. induction ls as [|l ls IH]; intros i H; [reflexivity|].
  simpl in H. simpl. destruct (Z.leb_spec max i) as [Hle|Hlt]; [lia|].
  rewrite (IH (i + 1)%Z) by lia. reflexivity.
Qed.

Lemma summarize_loop_err_unreached : forall dir name max err ls i,
  (Z.to_nat (max - i) < length ls)%nat ->
  summarize_loop dir name max i ls err = summarize_loop dir name max i ls None.
Proof.
  intros dir name max err ls. induction ls as [|l ls IH]; intros i H;
    [simpl in H; lia|].
  simpl in H. simpl. destruct (Z.leb_spec max i) as [Hle|Hlt]; [reflexivity|].
  rewrite (IH (i + 1)%Z) by lia. reflexivity.
Qed.

(** ** Summaries of text files *)

(** A readable file with at most [max_lines] lines is summarized as its
    whole text, line endings read as ["\n"] (universal newlines), with
    one final newline removed: every line is read, and only those. *)
Theorem summarize_short_file_is_text : forall dir name t max_lines,
  (length (file_lines (Contents t None)) <= Z.to_nat max_lines)%nat ->
  summarize_text_file dir name (Contents t None) max_lines =
    (Ok (chomp (translate_newlines t)),
     EvOpen dir name :: repeat (EvReadLine dir name) (length (file_lines (Contents t None)))).
Proof.
  intros dir name t max_lines H.
  rewrite summarize_text_file_readable, firstn_all2 by exact H.
  assert (Hf : (Z.to_nat max_lines <? length (file_lines (Contents t None)))%nat = false)
    by (apply Nat.ltb_ge; exact H).
  rewrite Hf, app_nil_r, map_rstrip_nl_chomp by apply py_lines_shape.
  rewrite Nat.min_l by lia.
  unfold file_lines. simpl text. rewrite join_chomp_lines. reflexivity.
Qed.

Lemma summarize_short_file_is_text_witness :
  (length (file_lines (Contents crlf_text None)) <= Z.to_nat 3)%nat /\
  summarize_text_file [] "win.txt" (Contents crlf_text None) 3 =
    (Ok (chomp (translate_newlines crlf_text)),
     EvOpen [] "win.txt" :: repeat (EvReadLine [] "win.txt")
       (length (file_lines (Contents crlf_text None)))).
Proof.
  assert (H : (length (file_lines (Contents crlf_text None)) <= Z.to_nat 3)%nat)
    by (vm_compute; lia).
  split; [exact H|]. exact (summarize_short_file_is_text [] "win.txt" crlf_text 3 H).
Defined.

(** The summary of a readable file holds no carriage return, whatever its
    line endings: text-mode reading turns ["\r\n"] and a lone ["\r"] into
    ["\n"] before the lines are cut and [rstrip('\n')] is applied. *)
Theorem summary_has_no_cr : forall dir name t max_lines,
  exists s log, summarize_text_file dir name (Contents t None) max_lines = (Ok s, log) /\
                no_char "013" s = true.
Proof.
  intros dir name t max_lines. rewrite summarize_text_file_readable.
  eexists; eexists; split; [reflexivity|].
  apply no_char_join; [reflexivity|]. apply Forall_app. split.
  - apply Forall_map. apply Forall_firstn.
    assert (Hl := no_char_py_lines "013" _
                    (translate_newlines_no_cr _ t (le_n _))).
    unfold file_lines. simpl text.
    apply (Forall_impl _ (fun l H => no_char_rstrip_nl "013" l H) Hl).
  - destruct (_ <? _)%nat; repeat constructor.
Qed.

(** When reading raises (an [open] error, which yields no line, or a
    decoding error, raised after the lines decoded from the earlier
    chunks), the exception is caught only if the loop gets there: when
    the iterator yields at most [max_lines] lines before raising, the
    summary is the error message alone, the lines already read being
    dropped; when it yields more, the file is cut at the cap before the
    error and summarized as if it had none. *)
Theorem summarize_read_error : forall dir name t e max_lines,
  ((length (file_lines (Contents t (Some e))) <= Z.to_nat max_lines)%nat ->
   summarize_text_file dir name (Contents t (Some e)) max_lines =
     (Ok ("Error reading file: " ++ exn_str e),
      EvOpen dir name :: repeat (EvReadLine dir name)
                           (length (file_lines (Contents t (Some e)))))) /\
  ((Z.to_nat max_lines < length (file_lines (Contents t (Some e))))%nat ->
   summarize_text_file dir name (Contents t (Some e)) max_lines =
   summarize_text_file dir name (Contents t None) max_lines).
Proof.
  intros dir name t e max_lines. split; intros H.
  - unfold summarize_text_file. simpl read_error.
    unfold catch, bind at 1. simpl.
    rewrite summarize_loop_err_reached by (rewrite Z.sub_0_r; exact H).
    simpl. rewrite !app_nil_r. reflexivity.
  - unfold summarize_text_file. simpl read_error.
    rewrite summarize_loop_err_unreached by (rewrite Z.sub_0_r; exact H).
    reflexivity.
Qed.

(** A readable file's summary has at most [max_lines + 1] lines (the
    lines kept and the truncation marker), so its content block in the
    prompt has at most [max_lines + 1] lines and its whole [<file>] block
    at most [max_lines + 5]. *)
Theorem summary_line_bound : forall dir name t max_lines s log,
  summarize_text_file dir name (Contents t None) max_lines = (Ok s, log) ->
  (length (py_split_nl s) <= S (Z.to_nat max_lines))%nat /\
  (length (file_parts (FileSummary name s)) <= Z.to_nat max_lines + 5)%nat.
Proof.
  intros dir name t max_lines s log H.
  rewrite summarize_text_file_readable in H. inversion H as [[Hs Hl]]. clear H Hl.
  rewrite map_rstrip_nl_chomp in Hs |- * by (apply Forall_firstn, py_lines_shape).
  set (ls := file_lines (Contents t None)) in Hs |- *.
  set (k := Z.to_nat max_lines) in Hs |- *.
  set (parts := (map chomp (firstn k ls)
                 ++ (if (k <? length ls)%nat then [truncation_marker] else []))%list) in Hs |- *.
  try rewrite Hs.
  assert (Hlen : (length (py_split_nl s) <= S k)%nat).
  { subst s. destruct parts as [|p ps] eqn:Ep.
    - simpl. lia.
    - rewrite split_join_nl; [|discriminate|].
      + rewrite <- Ep. unfold parts. rewrite length_app, length_map, length_firstn.
        destruct (Nat.ltb_spec k (length ls)); simpl; lia.
      + rewrite <- Ep. unfold parts. apply Forall_app. split.
        * apply Forall_map. apply (Forall_impl _ chomp_shape_no_nl).
          apply Forall_firstn, py_lines_shape.
        * destruct (_ <? _)%nat; [constructor; [apply no_nl_marker|constructor]|constructor]. }
  split; [exact Hlen|].
  unfold file_parts. simpl summary. rewrite !length_app, length_map. simpl. lia.
Qed.

Lemma summary_line_bound_witness :
  exists s log,
    summarize_text_file [] "win.txt" (Contents crlf_text None) 1 = (Ok s, log) /\
    (length (py_split_nl s) <= S (Z.to_nat 1))%nat /\
    (length (file_parts (FileSummary "win.txt" s)) <= Z.to_nat 1 + 5)%nat.
Proof.
  eexists; eexists; split; [reflexivity|].
  eapply (summary_line_bound [] "win.txt" crlf_text 1). reflexivity.
Defined.

(** The content block of a file is its summary cut at the newlines, one
    indented line per piece: the pieces hold no newline, and joining them
    back with newlines gives the summary, so the block loses nothing. *)
Theorem file_block_lossless : forall file_info,
  exists ls,
    file_parts file_info =
      (["    <file name=" ++ dq ++ fs_name file_info ++ dq ++ ">"; "      <content>"]%string
       ++ map (fun line => (content_indent ++ line)%string) ls
       ++ ["      </content>"; "    </file>"])%list /\
    ls <> [] /\ Forall no_nl ls /\ py_join nl ls = summary file_info.
Proof.
  intros file_info. exists (py_split_nl (summary file_info)).
  split; [reflexivity|]. split; [apply py_split_nl_nonnil|].
  split; [apply py_split_nl_no_nl|apply join_split_nl].
Qed.

(** ** The files of a directory entry *)

Lemma process_files_names : forall ie mx ml top dir cs fsums l,
  process_files ie mx ml top dir cs = (Ok fsums, l) ->
  map fs_name fsums = map node_name (filter (eligible ie) cs).
Proof.
  intros ie mx ml top dir cs. induction cs as [|c cs IH]; intros fsums l H.
  - inversion H; subst. reflexivity.
  - simpl in H. apply bind_Ok in H as [r [l1 [l2 [Hc [H _]]]]].
    apply bind_Ok in H as [rs [l3 [l4 [Hcs [H _]]]]]. inversion H; subst.
    destruct (process_file_Ok_shape _ _ _ _ _ _ _ _ Hc) as [Hel Hnel].
    simpl. destruct (eligible ie c) eqn:E.
    + destruct (Hel eq_refl) as [s [-> Hs]]. simpl. rewrite Hs. f_equal.
      apply (IH _ _ Hcs).
    + rewrite (Hnel eq_refl). apply (IH _ _ Hcs).
Qed.

(** Each entry of a completed walk is a directory the walk reaches, that
    can be listed, and its files are exactly that directory's files whose
    extension is not ignored, in listing order, without repetition or
    loss (oversized ones included). *)
Theorem walk_entry_files : forall ie id mx ml top root out log e,
  walk ie id mx ml top [] root = (Ok out, log) -> In e out ->
  exists name cs,
    In (directory e, Dir name true cs) (visited_dirs id root) /\
    map fs_name (files e) = map node_name (filter (eligible ie) cs).
Proof.
  intros ie id mx ml top root out log e Hw He.
  destruct (walk_sound ie id mx ml top _ _ _ _ _ Hw He)
    as [p [name [cs [l [Hre [Hdir [Hp _]]]]]]].
  simpl in Hdir, Hp. exists name, cs. rewrite Hdir. split.
  - apply visited_dirs_reaches, Hre.
  - apply (process_files_names _ _ _ _ _ _ _ _ Hp).
Qed.

Lemma walk_entry_files_witness :
  exists out log,
    walk Generator.ignored_ext Generator.ignored_dir Generator.MAX_FILE_SIZE_BYTES
      Generator.MAX_SUMMARY_LINES "repo" [] image_repo = (Ok out, log) /\
    exists e, In e out /\
      exists name cs,
        In (directory e, Dir name true cs) (visited_dirs Generator.ignored_dir image_repo) /\
        map fs_name (files e) = map node_name (filter (eligible Generator.ignored_ext) cs).
Proof.
  eexists; eexists; split; [reflexivity|].
  eexists; split; [simpl; left; reflexivity|].
  eapply (walk_entry_files Generator.ignored_ext Generator.ignored_dir
            Generator.MAX_FILE_SIZE_BYTES Generator.MAX_SUMMARY_LINES "repo" image_repo).
  - reflexivity.
  - simpl. left. reflexivity.
Defined.

(** ** The I/O of the walker *)

Lemma Forall_bind {A B} (P : event -> Prop) (m : M A) (f : A -> M B) :
  Forall P (snd m) ->
  (forall a l, m = (Ok a, l) -> Forall P (snd (f a))) ->
  Forall P (snd (bind m f)).
Proof.
  unfold bind. destruct m as [[a|e] l1]; simpl; intros H1 H2; [|exact H1].
  specialize (H2 a l1 eq_refl). destruct (f a) as [r l2]. simpl in *.
  apply Forall_app. auto.
Qed.

Lemma Forall_catch {A} (P : event -> Prop) (m : M A) (h : exn -> M A) :
  Forall P (snd m) -> (forall e, Forall P (snd (h e))) -> Forall P (snd (catch m h)).
Proof.
  unfold catch. destruct m as [[a|e] l1]; simpl; intros H1 H2; [exact H1|].
  specialize (H2 e). destruct (h e) as [r l2]. simpl in *. apply Forall_app. auto.
Qed.

Lemma Forall_concat_mapM {A B} (P : event -> Prop) (f : A -> M (list B)) : forall l,
  (forall x, In x l -> Forall P (snd (f x))) -> Forall P (snd (concat_mapM f l)).
Proof.
  induction l as [|x l IH]; intros H; simpl; [constructor|].
  apply Forall_bind; [apply H; left; reflexivity|intros a la _].
  apply Forall_bind; [apply IH; intros y Hy; apply H; right; exact Hy|].
  intros; constructor.
Qed.

Lemma summarize_loop_events : forall dir name max err ls i,
  Forall (fun ev => ev = EvReadLine dir name) (snd (summarize_loop dir name max i ls err)).
Proof.
  intros dir name max err ls. induction ls as [|x ls IH]; intros i; cbn [summarize_loop].
  - destruct err; constructor.
  - apply Forall_bind; [repeat constructor|intros _ _ _].
    destruct (max <=? i)%Z; [constructor|].
    apply Forall_bind; [apply IH|intros; constructor].
Qed.

Lemma summarize_text_file_events : forall dir name c max_lines,
  Forall (fun ev => ev = EvOpen dir name \/ ev = EvReadLine dir name)
    (snd (summarize_text_file dir name c max_lines)).
Proof.
  intros dir name c max_lines. unfold summarize_text_file.
  apply Forall_bind; [|intros; constructor].
  apply Forall_catch; [|intros; constructor].
  apply Forall_bind; [repeat constructor; left; reflexivity|intros _ _ _].
  eapply Forall_impl; [|apply summarize_loop_events]. simpl. auto.
Qed.

Lemma process_file_events : forall ie mx ml top dir c,
  Forall (fun ev =>
    match c with
    | File name size body =>
        eligible ie c = true /\
        (ev = EvGetSize dir name \/
         exists s, size = Some s /\ (s <= mx)%Z /\
                   (ev = EvOpen dir name \/ ev = EvReadLine dir name))
    | Dir _ _ _ => False
    end) (snd (process_file ie mx ml top dir c)).
Proof.
  intros ie mx ml top dir [name size body|d ok cs]; simpl; [|constructor].
  destruct (ie (py_lower (splitext_ext name))) eqn:E; simpl; [constructor|].
  apply Forall_bind.
  - unfold getsize. apply Forall_bind; [repeat constructor; auto|].
    intros _ _ _. destruct size; constructor.
  - intros sz l Hg. destruct (mx <? sz)%Z eqn:Hlt; [constructor|].
    assert (Hs : size = Some sz).
    { unfold getsize in Hg. destruct size; simpl in Hg; inversion Hg; reflexivity. }
    apply Forall_bind; [|intros; constructor].
    eapply Forall_impl; [|apply summarize_text_file_events].
    intros ev Hev. simpl. split; [reflexivity|]. right. exists sz.
    split; [exact Hs|]. split; [apply Z.ltb_ge, Hlt|exact Hev].
Qed.

Lemma process_files_events : forall ie mx ml top dir cs,
  Forall (fun ev => exists c, In c cs /\
    match c with
    | File name size body =>
        eligible ie c = true /\
        (ev = EvGetSize dir name \/
         exists s, size = Some s /\ (s <= mx)%Z /\
                   (ev = EvOpen dir name \/ ev = EvReadLine dir name))
    | Dir _ _ _ => False
    end) (snd (process_files ie mx ml top dir cs)).
Proof.
  intros ie mx ml top dir cs. induction cs as [|c cs IH]; simpl; [constructor|].
  apply Forall_bind.
  - eapply Forall_impl; [|apply process_file_events]. intros ev H.
    exists c. split; [left; reflexivity|exact H].
  - intros r _ _. apply Forall_bind; [|intros; constructor].
    eapply Forall_impl; [|exact IH]. intros ev [c' [Hc' H]].
    exists c'. split; [right; exact Hc'|exact H].
Qed.

Lemma visited_dirs_sub : forall id name cs d ok' cs' p x,
  In (Dir d ok' cs') cs -> id d = false ->
  In (p, x) (visited_dirs id (Dir d ok' cs')) ->
  In (d :: p, x) (visited_dirs id (Dir name true cs)).
Proof.
  intros id name cs d ok' cs' p x Hc Hd H.
  apply visited_dirs_reaches. apply visited_dirs_reaches in H.
  eapply reaches_sub; eassumption.
Qed.

Lemma walk_events_at : forall ie id mx ml top n rel,
  Forall (walk_event_at ie id mx rel n) (snd (walk ie id mx ml top rel n)).
Proof.
  intros ie id mx ml top n. induction n as [name size body|name ok cs IH] using node_ind';
    intros rel; [constructor|].
  rewrite walk_dir_unfold. apply Forall_bind.
  - constructor; [|constructor]. simpl. exists [], (Dir name ok cs).
    rewrite app_nil_r. split; [reflexivity|left; reflexivity].
  - intros _ _ _. destruct ok; simpl negb; [|constructor].
    apply Forall_bind.
    + eapply Forall_impl; [|apply process_files_events].
      intros ev [c [Hc H]]. destruct c as [fname size body|]; [|contradiction].
      destruct H as [Hel [->|[s [-> [Hs [-> | ->]]]]]]; simpl.
      * exists [], name, cs, size, body. rewrite app_nil_r.
        repeat split; auto; left; reflexivity.
      * exists [], name, cs, s, body. rewrite app_nil_r.
        repeat split; auto; left; reflexivity.
      * exists [], name, cs, s, body. rewrite app_nil_r.
        repeat split; auto; left; reflexivity.
    + intros fsums _ _. apply Forall_bind; [|intros; constructor].
      apply Forall_concat_mapM. intros c Hc.
      destruct c as [|d ok' cs']; simpl; [constructor|].
      destruct (id d) eqn:Hd; [constructor|].
      rewrite Forall_forall in IH. specialize (IH _ Hc (rel ++ [d])%list).
      eapply Forall_impl; [|exact IH]. intros ev.
      destruct ev as [q|q|q fname|q fname|q fname]; simpl.
      * intros [p [x [-> Hin]]]. exists (d :: p), x.
        rewrite <- app_assoc. split; [reflexivity|].
        eapply visited_dirs_sub; eassumption.
      * intros [].
      * intros [p [dn [cs0 [size [body [-> [Hin Hrest]]]]]]].
        exists (d :: p), dn, cs0, size, body. rewrite <- app_assoc.
        split; [reflexivity|]. split; [eapply visited_dirs_sub; eassumption|exact Hrest].
      * intros [p [dn [cs0 [s [body [-> [Hin Hrest]]]]]]].
        exists (d :: p), dn, cs0, s, body. rewrite <- app_assoc.
        split; [reflexivity|]. split; [eapply visited_dirs_sub; eassumption|exact Hrest].
      * intros [p [dn [cs0 [s [body [-> [Hin Hrest]]]]]]].
        exists (d :: p), dn, cs0, s, body. rewrite <- app_assoc.
        split; [reflexivity|]. split; [eapply visited_dirs_sub; eassumption|exact Hrest].
Qed.

(** Whatever its outcome, the walker performs only this I/O: it lists the
    directories it reaches (ignored names excluded, nothing below a
    directory that cannot be listed); it queries the size of a file only
    in a reached, listable directory and only when the file's extension is
    not ignored; and it opens and reads only such files whose size is at
    most the limit. *)
Theorem walk_io_confined : forall ie id mx ml top root,
  Forall (walk_event_ok ie id mx root) (snd (walk ie id mx ml top [] root)).
Proof.
  intros ie id mx ml top root.
  eapply Forall_impl; [|apply walk_events_at].
  intros [q|q|q fname|q fname|q fname]; simpl.
  - intros [p [x [-> Hin]]]. exists x. exact Hin.
  - intros [].
  - intros [p [dn [cs [size [body [-> H]]]]]]. exists dn, cs, size, body. exact H.
  - intros [p [dn [cs [s [body [-> H]]]]]]. exists dn, cs, s, body. exact H.
  - intros [p [dn [cs [s [body [-> H]]]]]]. exists dn, cs, s, body. exact H.
Qed.

(** ** The I/O of the tree renderer *)

Lemma Forall_render_entries : forall (P : event -> Prop) keep path prefix es,
  (forall e, In e es -> P (EvIsDir (path ++ [item_name e])%list)) ->
  (forall e, In e es -> item_is_dir e = true -> forall pr, Forall P (snd (item_walk e pr))) ->
  Forall P (snd (render_entries keep path prefix es)).
Proof.
  intros P keep path prefix es. revert prefix.
  induction es as [|e es IH]; intros prefix Hi H; cbn [render_entries]; [constructor|].
  apply Forall_bind; [constructor; [apply Hi; left; reflexivity|constructor]|].
  intros _ _ _. apply Forall_bind.
  - destruct (item_is_dir e) eqn:Hd.
    + apply Forall_bind; [apply H; [left; reflexivity|exact Hd]|intros; constructor].
    + destruct (keep (item_name e)); constructor.
  - intros here _ _. apply Forall_bind; [|intros; constructor].
    apply IH.
    + intros e' He'. apply Hi. right. exact He'.
    + intros e' He'. apply H. right. exact He'.
Qed.

Lemma tree_listing_In : forall ign keep top path cs e,
  In e (filter (fun e => negb (ign (item_name e)))
          (sort_by_name item_name (map (tree_item_of ign keep top path) cs))) ->
  exists c, In c cs /\ e = tree_item_of ign keep top path c /\ ign (node_name c) = false.
Proof.
  intros ign keep top path cs e H. apply filter_In in H as [H Hign].
  apply In_sort in H. apply in_map_iff in H as [c [<- Hc]].
  exists c. split; [exact Hc|split; [reflexivity|]]. simpl in Hign.
  destruct (ign (node_name c)); [discriminate|reflexivity].
Qed.

Lemma walk_directory_events : forall ign keep top n path prefix,
  node_is_dir n = true ->
  Forall (tree_event_at ign path n) (snd (walk_directory ign keep top path n prefix)).
Proof.
  intros ign keep top n. induction n as [name size body|name ok cs IH] using node_ind';
    intros path prefix Hdir; [discriminate|].
  rewrite walk_directory_dir_unfold. apply Forall_bind.
  - constructor; [|constructor]. exists [], (Dir name ok cs).
    rewrite app_nil_r. split; [reflexivity|left; reflexivity].
  - intros _ _ _. destruct ok; simpl negb; [|constructor].
    apply Forall_render_entries.
    + intros e He. destruct (tree_listing_In _ _ _ _ _ _ He) as [c [Hc [-> Hign]]].
      exists [], name, cs, c. split; [reflexivity|].
      split; [left; reflexivity|]. split; [exact Hc|exact Hign].
    + intros e He Hd pr.
      destruct (tree_listing_In _ _ _ _ _ _ He) as [c [Hc [-> Hign]]].
      destruct c as [|d ok' cs']; [discriminate|]. simpl in Hign |- *.
      rewrite Forall_forall in IH. eapply Forall_impl; [|apply (IH _ Hc); reflexivity].
      intros [q|q|q fname|q fname|q fname]; simpl; try tauto.
      * intros [p [x [-> Hin]]]. exists (d :: p), x. rewrite <- app_assoc.
        split; [reflexivity|]. eapply visited_dirs_sub; eassumption.
      * intros [p [dn [cs0 [c [-> [Hin Hrest]]]]]]. exists (d :: p), dn, cs0, c.
        rewrite <- app_assoc. split; [reflexivity|].
        split; [eapply visited_dirs_sub; eassumption|exact Hrest].
Qed.

(** Whatever its outcome, the tree view of a directory performs only
    this I/O: it lists the directories the walk reaches (the root and,
    below a directory that can be listed, the subdirectories whose names
    are not ignored), and it tests with [os.path.isdir] only the entries,
    not ignored by name, of the reached directories it could list.  It
    never queries a size, opens or reads a file. *)
Theorem tree_io_lists_reached_dirs : forall ign keep root_dir root,
  node_is_dir root = true ->
  Forall (tree_event_at ign [] root) (snd (directory_tree ign keep root_dir root)).
Proof.
  intros ign keep root_dir root Hdir. unfold directory_tree.
  apply Forall_bind; [|intros; constructor].
  apply walk_directory_events, Hdir.
Qed.

Lemma tree_io_lists_reached_dirs_witness :
  node_is_dir image_repo = true /\
  Forall (tree_event_at Generator.ignored_dir [] image_repo)
    (snd (directory_tree Generator.ignored_dir (fun _ => true) "repo" image_repo)).
Proof.
  assert (H : node_is_dir image_repo = true) by reflexivity.
  split; [exact H|].
  exact (tree_io_lists_reached_dirs Generator.ignored_dir (fun _ => true) "repo"
           image_repo H).
Defined.

(** ** When a run succeeds *)

Lemma succeeds_ret {A} (a : A) : succeeds (ret a).
Proof. exists a, []. reflexivity. Qed.

Lemma succeeds_raise {A} (e : exn) : ~ succeeds (@raise A e).
Proof. intros [a [l H]]. discriminate. Qed.

Lemma succeeds_bind {A B} (m : M A) (f : A -> M B) :
  succeeds (bind m f) <-> succeeds m /\ forall a l, m = (Ok a, l) -> succeeds (f a).
Proof.
  unfold succeeds, bind. destruct m as [[a|e] l1]; split.
  - destruct (f a) as [[b|e] l2] eqn:E; intros [b' [l' H]]; inversion H; subst.
    split; [eauto|]. intros a' l'' H'. inversion H'; subst. rewrite E. eauto.
  - intros [_ H]. destruct (H a l1 eq_refl) as [b [l2 E]]. rewrite E. eauto.
  - intros [b [l H]]. discriminate.
  - intros [[a [l H]] _]. discriminate.
Qed.

Lemma succeeds_tell {A} ev (m : M A) : succeeds (tell ev ;;; m) <-> succeeds m.
Proof.
  rewrite succeeds_bind. split.
  - intros [_ H]. apply (H tt [ev] eq_refl).
  - intros H. split; [exists tt, [ev]; reflexivity|]. intros; exact H.
Qed.

Lemma succeeds_concat_mapM {A B} (f : A -> M (list B)) : forall xs,
  succeeds (concat_mapM f xs) <-> forall x, In x xs -> succeeds (f x).
Proof.
  induction xs as [|x xs IH]; simpl.
  - split; [intros _ x []|intros _; apply succeeds_ret].
  - rewrite succeeds_bind. split.
    + intros [Hx H] y [<-|Hy]; [exact Hx|].
      destruct Hx as [r [l Hr]]. specialize (H r l Hr).
      rewrite succeeds_bind in H. destruct H as [H _]. apply IH; assumption.
    + intros H. split; [apply H; left; reflexivity|]. intros r l _.
      rewrite succeeds_bind. split; [apply IH; intros y Hy; apply H; right; exact Hy|].
      intros; apply succeeds_ret.
Qed.

Lemma succeeds_process_file : forall ie mx ml top dir c,
  succeeds (process_file ie mx ml top dir c) <-> (eligible ie c = true -> has_size c = true).
Proof.
  intros ie mx ml top dir [name size body|d ok cs]; simpl.
  - destruct (ie (py_lower (splitext_ext name))); simpl.
    + split; [discriminate|intros _; apply succeeds_ret].
    + rewrite succeeds_bind. unfold getsize. rewrite succeeds_tell.
      destruct size as [s|]; simpl.
      * split; [reflexivity|]. intros _. split; [apply succeeds_ret|].
        intros a l H. inversion H; subst.
        destruct (mx <? a)%Z; [apply succeeds_ret|].
        rewrite succeeds_bind. split; [apply summarize_text_file_Ok|].
        intros; apply succeeds_ret.
      * split; [intros [H _]; apply succeeds_raise in H; contradiction|].
        intros H. discriminate (H eq_refl).
  - split; [discriminate|intros _; apply succeeds_ret].
Qed.

Lemma succeeds_process_files : forall ie mx ml top dir cs,
  succeeds (process_files ie mx ml top dir cs) <->
  forall c, In c cs -> eligible ie c = true -> has_size c = true.
Proof.
  intros ie mx ml top dir cs. induction cs as [|c cs IH]; simpl.
  - split; [intros _ c []|intros _; apply succeeds_ret].
  - rewrite succeeds_bind, succeeds_process_file. split.
    + intros [Hc H] c' [<-|Hc']; [exact Hc|].
      assert (Hs : succeeds (process_file ie mx ml top dir c))
        by (apply succeeds_process_file; exact Hc).
      destruct Hs as [r [l Hr]]. specialize (H r l Hr).
      rewrite succeeds_bind in H. apply IH; [apply H|exact Hc'].
    + intros H. split; [apply H; left; reflexivity|]. intros r l _.
      rewrite succeeds_bind. split; [apply IH; intros c' Hc'; apply H; right; exact Hc'|].
      intros; apply succeeds_ret.
Qed.

Lemma visited_dirs_dir_In : forall id name ok cs p x,
  In (p, x) (visited_dirs id (Dir name ok cs)) <->
  (p = [] /\ x = Dir name ok cs) \/
  (ok = true /\ exists d ok' cs' p', p = d :: p' /\ In (Dir d ok' cs') cs /\
                id d = false /\ In (p', x) (visited_dirs id (Dir d ok' cs'))).
Proof.
  intros id name ok cs p x. rewrite visited_dirs_reaches. split.
  - intros H. inversion H as [|name' cs0 d ok' cs' p' x' Hc Hd Hr]; subst.
    + left. auto.
    + right. split; [reflexivity|]. exists d, ok', cs', p'.
      repeat split; auto. apply visited_dirs_reaches, Hr.
  - intros [[-> ->]|[-> [d [ok' [cs' [p' [-> [Hc [Hd Hin]]]]]]]]]; [constructor|].
    eapply reaches_sub; [exact Hc|exact Hd|]. apply visited_dirs_reaches, Hin.
Qed.

Lemma succeeds_walk : forall ie id mx ml top n rel,
  succeeds (walk ie id mx ml top rel n) <->
  (forall p name cs c, In (p, Dir name true cs) (visited_dirs id n) -> In c cs ->
     eligible ie c = true -> has_size c = true).
Proof.
  intros ie id mx ml top n. induction n as [name size body|name ok cs IH] using node_ind';
    intros rel.
  - split; [intros _ p name' cs c []|intros _; apply succeeds_ret].
  - rewrite walk_dir_unfold, succeeds_tell. rewrite Forall_forall in IH.
    destruct ok; simpl negb.
    + rewrite succeeds_bind, succeeds_process_files. split.
      * intros [Hf H] p name' cs' c Hin Hc Hel.
        destruct (proj2 (succeeds_process_files ie mx ml top rel cs) Hf) as [fs [l Hfs]].
        specialize (H fs l Hfs). rewrite succeeds_bind, succeeds_concat_mapM in H.
        destruct H as [Hsub _].
        apply visited_dirs_dir_In in Hin
          as [[-> Heq]|[_ [d [ok' [cs0 [p' [-> [Hd [Hid Hin]]]]]]]]].
        -- inversion Heq; subst. apply Hf; assumption.
        -- specialize (Hsub _ Hd). simpl in Hsub. rewrite Hid in Hsub.
           eapply (IH _ Hd (rel ++ [d])%list); eassumption.
      * intros H. split.
        -- intros c Hc. apply (H [] name cs c); [left; reflexivity|exact Hc].
        -- intros fs l _. rewrite succeeds_bind, succeeds_concat_mapM. split;
             [|intros; apply succeeds_ret].
           intros c Hc. destruct c as [|d ok' cs']; [apply succeeds_ret|].
           simpl. destruct (id d) eqn:Hid; [apply succeeds_ret|].
           apply (IH _ Hc). intros p name' cs0 c' Hin Hc' Hel.
           apply (H (d :: p) name' cs0 c'); [|exact Hc'|exact Hel].
           eapply visited_dirs_sub; eassumption.
    + split; [|intros _; apply succeeds_ret].
      intros _ p name' cs' c Hin. apply visited_dirs_dir_In in Hin
        as [[_ Heq]|[Hf _]]; [discriminate|discriminate].
Qed.

Lemma succeeds_render_intro : forall keep path prefix es,
  (forall e, In e es -> item_is_dir e = true -> forall pr, succeeds (item_walk e pr)) ->
  succeeds (render_entries keep path prefix es).
Proof.
  intros keep path prefix es. revert prefix.
  induction es as [|e es IH]; intros prefix H; cbn [render_entries]; [apply succeeds_ret|].
  rewrite succeeds_tell, succeeds_bind. split.
  - destruct (item_is_dir e) eqn:Hd; [|destruct (keep (item_name e)); apply succeeds_ret].
    rewrite succeeds_bind. split; [apply H; [left; reflexivity|exact Hd]|].
    intros; apply succeeds_ret.
  - intros here l _. rewrite succeeds_bind.
    split; [apply IH; intros e' He'; apply H; right; exact He'|].
    intros; apply succeeds_ret.
Qed.

Lemma succeeds_render_elim : forall keep path prefix es,
  succeeds (render_entries keep path prefix es) ->
  forall e, In e es -> item_is_dir e = true -> exists pr, succeeds (item_walk e pr).
Proof.
  intros keep path prefix es. revert prefix.
  induction es as [|e es IH]; intros prefix H e' He' Hd; [destruct He'|].
  cbn [render_entries] in H. rewrite succeeds_tell, succeeds_bind in H. destruct H as [Hhere H].
  destruct He' as [<-|He'].
  - rewrite Hd in Hhere. rewrite succeeds_bind in Hhere.
    eexists. apply Hhere.
  - destruct Hhere as [here [l Hh]]. specialize (H here l Hh).
    rewrite succeeds_bind in H. apply (IH prefix); [apply H|exact He'|exact Hd].
Qed.

Lemma tree_listing_In_rev : forall ign keep top path cs c,
  In c cs -> ign (node_name c) = false ->
  In (tree_item_of ign keep top path c)
     (filter (fun e => negb (ign (item_name e)))
        (sort_by_name item_name (map (tree_item_of ign keep top path) cs))).
Proof.
  intros ign keep top path cs c Hc Hign. apply filter_In. split.
  - apply In_sort, in_map, Hc.
  - simpl. rewrite Hign. reflexivity.
Qed.

Lemma succeeds_walk_directory : forall ign keep top n path prefix,
  succeeds (walk_directory ign keep top path n prefix) <->
  node_is_dir n = true /\
  (forall p x, In (p, x) (visited_dirs ign n) -> node_listable x = true).
Proof.
  intros ign keep top n. induction n as [name size body|name ok cs IH] using node_ind';
    intros path prefix.
  - cbn [walk_directory]. rewrite succeeds_tell.
    split; [intros H; apply succeeds_raise in H; contradiction|].
    intros [H _]; discriminate.
  - rewrite walk_directory_dir_unfold, succeeds_tell. rewrite Forall_forall in IH.
    destruct ok; simpl negb.
    + split.
      * intros H. split; [reflexivity|]. intros p x Hin.
        apply visited_dirs_dir_In in Hin
          as [[-> ->]|[_ [d [ok' [cs' [p' [-> [Hd [Hid Hin]]]]]]]]]; [reflexivity|].
        destruct (succeeds_render_elim _ _ _ _ H (tree_item_of ign keep top path (Dir d ok' cs')))
          as [pr Hpr]; [apply tree_listing_In_rev; assumption|reflexivity|].
        apply (IH _ Hd) in Hpr. destruct Hpr as [_ Hl]. apply (Hl _ _ Hin).
      * intros [_ H]. apply succeeds_render_intro. intros e He Hdir pr.
        destruct (tree_listing_In _ _ _ _ _ _ He) as [c [Hc [-> Hign]]].
        destruct c as [|d ok' cs']; [discriminate|]. simpl in Hign |- *.
        apply (IH _ Hc). split; [reflexivity|]. intros p x Hin.
        apply (H (d :: p) x). eapply visited_dirs_sub; eassumption.
    + split; [intros H; apply succeeds_raise in H; contradiction|].
      intros [_ H]. discriminate (H [] (Dir name false cs) (or_introl eq_refl)).
Qed.

(** What both [generate_prompt] functions run on a directory. *)
Lemma succeeds_prompt_body : forall ign keep ie mx ml top repo_dir root sys user,
  node_is_dir root = true ->
  succeeds (directory_tree <- directory_tree ign keep repo_dir root ;;
            repo_summary <- walk ie ign mx ml top [] root ;;
            ret (format_prompt_xml repo_summary directory_tree sys user))
  <-> prompt_ok ie ign root.
Proof.
  intros ign keep ie mx ml top repo_dir root sys user Hdir. unfold prompt_ok, directory_tree.
  rewrite succeeds_bind, succeeds_bind, succeeds_walk_directory. split.
  - intros [[[_ Hl] _] H]. split; [exact Hdir|split; [exact Hl|]].
    destruct (proj2 (succeeds_walk_directory ign keep repo_dir root [] "") (conj Hdir Hl))
      as [lines [l1 Hw]].
    specialize (H _ _ (f_equal (fun m => bind m (fun lines =>
                  ret (py_join nl ((root_basename repo_dir ++ "/") :: lines)))) Hw)).
    simpl in H. rewrite succeeds_bind in H. destruct H as [H _].
    apply (proj1 (succeeds_walk ie ign mx ml top root []) H).
  - intros [_ [Hl Hs]]. split.
    + split; [split; [exact Hdir|exact Hl]|]. intros; apply succeeds_ret.
    + intros tree l _. rewrite succeeds_bind. split; [|intros; apply succeeds_ret].
      apply succeeds_walk. exact Hs.
Qed.

Lemma generator_succeeds : forall repo_dir at_path sys user,
  succeeds (Generator.generate_prompt repo_dir at_path sys user) <->
  exists root, at_path = Some root /\
    prompt_ok Generator.ignored_ext Generator.ignored_dir root.
Proof.
  intros repo_dir at_path sys user. unfold Generator.generate_prompt. rewrite succeeds_tell.
  destruct at_path as [[name size body|name ok cs]|].
  - split; [intros H; apply succeeds_raise in H; contradiction|].
    intros [root [Hr [Hd _]]]. inversion Hr; subst. discriminate.
  - unfold Generator.create_directory_tree,
      Generator.create_repo_summary. simpl py_isdir. cbv iota beta.
    rewrite succeeds_prompt_body by reflexivity. split.
    + intros H. exists (Dir name ok cs). auto.
    + intros [root [Hr H]]. inversion Hr; subst. exact H.
  - split; [intros H; apply succeeds_raise in H; contradiction|].
    intros [root [Hr _]]. discriminate.
Qed.

Lemma repoforge_succeeds : forall repo_dir at_path sys user mx ml ids iexts,
  succeeds (Repoforge.generate_prompt repo_dir at_path sys user mx ml ids iexts) <->
  exists root, at_path = Some root /\
    prompt_ok (fun e => mem e iexts) (fun d => mem d ids) root.
Proof.
  intros repo_dir at_path sys user mx ml ids iexts. unfold Repoforge.generate_prompt. rewrite succeeds_tell.
  destruct at_path as [[name size body|name ok cs]|].
  - split; [intros H; apply succeeds_raise in H; contradiction|].
    intros [root [Hr [Hd _]]]. inversion Hr; subst. discriminate.
  - unfold Repoforge.create_directory_tree,
      Repoforge.create_repo_summary. simpl py_isdir. cbv iota beta.
    rewrite succeeds_prompt_body by reflexivity. split.
    + intros H. exists (Dir name ok cs). auto.
    + intros [root [Hr H]]. inversion Hr; subst. exact H.
  - split; [intros H; apply succeeds_raise in H; contradiction|].
    intros [root [Hr _]]. discriminate.
Qed.

(** [generate_prompt] of either module returns a prompt, instead of
    raising, exactly when the path holds a directory in which every
    directory reached (ignored names excluded) can be listed and every
    file of a reached directory whose extension is not ignored has a
    size.  Neither the two messages nor, in repoforge.py, the two limits
    play any part. *)
Theorem generate_prompt_succeeds_iff :
  (forall repo_dir at_path sys user,
     succeeds (Generator.generate_prompt repo_dir at_path sys user) <->
     exists root, at_path = Some root /\
       prompt_ok Generator.ignored_ext Generator.ignored_dir root) /\
  (forall repo_dir at_path sys user mx ml ids iexts,
     succeeds (Repoforge.generate_prompt repo_dir at_path sys user mx ml ids iexts) <->
     exists root, at_path = Some root /\
       prompt_ok (fun e => mem e iexts) (fun d => mem d ids) root).
Proof. split; [apply generator_succeeds|apply repoforge_succeeds]. Qed.

(** ** The command line *)

Lemma cli_main_status : forall gp prog args,
  snd (fst (cli_main gp prog args)) = 0%Z <->
  exists repo rest, args = repo :: rest /\
    succeeds (gp repo (Some match rest with s :: _ => s | [] => "" end)
                      (Some match rest with _ :: u :: _ => u | _ => "" end)).
Proof.
  intros gp prog [|repo rest]; simpl.
  - split; [discriminate|intros [repo [rest [H _]]]; discriminate].
  - destruct (gp repo _ _) as [[prompt|e] log] eqn:E; simpl; split.
    + intros _. exists repo, rest. split; [reflexivity|]. rewrite E. eexists; eexists; reflexivity.
    + intros _. reflexivity.
    + discriminate.
    + intros [repo' [rest' [Heq [a [l H]]]]]. inversion Heq; subst. congruence.
Qed.

(** The command line of either module: without an argument it prints the
    usage line, performs no I/O and exits with status 1; otherwise it
    exits with status 0 exactly when the first argument names a directory
    on which [generate_prompt] succeeds (see the condition above, with the
    default sets in repoforge.py), and with status 1 after printing the
    error otherwise. *)
Theorem main_exit_status :
  (forall fs prog,
     Generator.main fs prog [] =
       (("Usage: python " ++ prog
         ++ " <repo_directory> [<system_message>] [<user_instructions>]" ++ nl, 1%Z), []) /\
     Repoforge.main fs prog [] =
       (("Usage: python " ++ prog
         ++ " <repo_directory> [<system_message>] [<user_instructions>]" ++ nl, 1%Z), [])) /\
  (forall fs prog args,
     snd (fst (Generator.main fs prog args)) = 0%Z <->
     exists repo rest root, args = repo :: rest /\ fs repo = Some root /\
       prompt_ok Generator.ignored_ext Generator.ignored_dir root) /\
  (forall fs prog args,
     snd (fst (Repoforge.main fs prog args)) = 0%Z <->
     exists repo rest root, args = repo :: rest /\ fs repo = Some root /\
       prompt_ok (fun e => mem e Repoforge.DEFAULT_IGNORED_EXTENSIONS)
                 (fun d => mem d Repoforge.DEFAULT_IGNORED_DIRS) root) /\
  (forall fs prog args,
     snd (fst (Generator.main fs prog args)) = 0%Z \/
     snd (fst (Generator.main fs prog args)) = 1%Z) /\
  (forall fs prog args,
     snd (fst (Repoforge.main fs prog args)) = 0%Z \/
     snd (fst (Repoforge.main fs prog args)) = 1%Z).
Proof.
  assert (H01 : forall gp prog args,
             snd (fst (cli_main gp prog args)) = 0%Z \/
             snd (fst (cli_main gp prog args)) = 1%Z).
  { intros gp prog [|repo rest]; simpl; [right; reflexivity|].
    destruct (gp repo _ _) as [[prompt|e] log]; simpl; auto. }
  split; [intros fs prog; split; reflexivity|].
  split; [|split; [|split; intros; apply H01]].
  - intros fs prog args. unfold Generator.main. rewrite cli_main_status. split.
    + intros [repo [rest [-> H]]]. apply generator_succeeds in H as [root [Hr H]].
      exists repo, rest, root. auto.
    + intros [repo [rest [root [-> [Hr H]]]]]. exists repo, rest. split; [reflexivity|].
      apply generator_succeeds. exists root. auto.
  - intros fs prog args. unfold Repoforge.main, Repoforge.generate_prompt_defaults.
    rewrite cli_main_status. split.
    + intros [repo [rest [-> H]]]. apply repoforge_succeeds in H as [root [Hr H]].
      exists repo, rest, root. auto.
    + intros [repo [rest [root [-> [Hr H]]]]]. exists repo, rest. split; [reflexivity|].
      apply repoforge_succeeds. exists root. auto.
Qed.

(** ** generator.py and repoforge.py *)

Lemma all_files_impl : forall (p q : node -> bool),
  (forall name size body, p (File name size body) = true -> q (File name size body) = true) ->
  forall n, all_files p n = true -> all_files q n = true.
Proof.
  intros p q Hpq n. induction n as [name size body|name ok cs IH] using node_ind';
    simpl; [apply Hpq|].
  intros H. apply forallb_forall. intros c Hc. rewrite forallb_forall in H.
  rewrite Forall_forall in IH. apply IH; auto.
Qed.

Lemma render_entries_keep : forall keep1 keep2 path prefix es,
  (forall e, In e es -> item_is_dir e = false -> keep1 (item_name e) = keep2 (item_name e)) ->
  render_entries keep1 path prefix es = render_entries keep2 path prefix es.
Proof.
  intros keep1 keep2 path prefix es. revert prefix.
  induction es as [|e es IH]; intros prefix H; [reflexivity|]. cbn [render_entries].
  rewrite IH by (intros e' He'; apply H; right; exact He').
  destruct (item_is_dir e) eqn:Hd; [reflexivity|].
  rewrite (H e (or_introl eq_refl) Hd). reflexivity.
Qed.

Lemma walk_directory_keep : forall ign keep1 keep2 top n,
  all_files (fun c => Bool.eqb (keep1 (node_name c)) (keep2 (node_name c))) n = true ->
  forall path prefix,
    walk_directory ign keep1 top path n prefix = walk_directory ign keep2 top path n prefix.
Proof.
  intros ign keep1 keep2 top n. induction n as [name size body|name ok cs IH] using node_ind';
    intros Hall path prefix; [reflexivity|].
  rewrite !walk_directory_dir_unfold. destruct ok; simpl negb; [|reflexivity].
  simpl in Hall. rewrite forallb_forall in Hall. rewrite Forall_forall in IH.
  assert (Hmap : map (tree_item_of ign keep1 top path) cs =
                 map (tree_item_of ign keep2 top path) cs).
  { apply map_ext_in. intros c Hc. unfold tree_item_of. f_equal.
    apply functional_extensionality. intros pr. apply IH; auto. }
  rewrite Hmap, (render_entries_keep keep1 keep2); [reflexivity|]. intros e He Hd.
  destruct (tree_listing_In _ _ _ _ _ _ He) as [c [Hc [-> _]]].
  destruct c as [fname size body|]; [|discriminate].
  apply Bool.eqb_prop, (Hall _ Hc).
Qed.

Lemma concat_mapM_ext {A B} (f g : A -> M (list B)) : forall l,
  (forall x, In x l -> f x = g x) -> concat_mapM f l = concat_mapM g l.
Proof.
  induction l as [|x l IH]; intros H; [reflexivity|]. simpl.
  rewrite (H x (or_introl eq_refl)), IH by (intros y Hy; apply H; right; exact Hy).
  reflexivity.
Qed.

Lemma process_file_mx : forall ie mx1 mx2 ml top dir c,
  all_files (fun c => match c with
                      | File _ (Some s) _ => Bool.eqb (mx1 <? s)%Z (mx2 <? s)%Z
                      | _ => true
                      end) c = true ->
  process_file ie mx1 ml top dir c = process_file ie mx2 ml top dir c.
Proof.
  intros ie mx1 mx2 ml top dir [name [s|] body|d ok cs] H; try reflexivity.
  simpl in H. apply Bool.eqb_prop in H. simpl.
  destruct (ie (py_lower (splitext_ext name))); [reflexivity|].
  unfold getsize. simpl. rewrite H. reflexivity.
Qed.

Lemma walk_mx : forall ie id mx1 mx2 ml top n,
  all_files (fun c => match c with
                      | File _ (Some s) _ => Bool.eqb (mx1 <? s)%Z (mx2 <? s)%Z
                      | _ => true
                      end) n = true ->
  forall rel, walk ie id mx1 ml top rel n = walk ie id mx2 ml top rel n.
Proof.
  intros ie id mx1 mx2 ml top n. induction n as [name size body|name ok cs IH] using node_ind';
    intros Hall rel; [reflexivity|].
  rewrite !walk_dir_unfold. destruct ok; simpl negb; [|reflexivity].
  simpl in Hall. rewrite forallb_forall in Hall. rewrite Forall_forall in IH.
  assert (Hpf : process_files ie mx1 ml top rel cs = process_files ie mx2 ml top rel cs).
  { clear IH. induction cs as [|c cs IHcs]; [reflexivity|]. simpl.
    rewrite (process_file_mx ie mx1 mx2 ml top rel c) by (apply Hall; left; reflexivity).
    rewrite IHcs by (intros c' Hc'; apply Hall; right; exact Hc'). reflexivity. }
  assert (Hsub : concat_mapM (walk_sub ie id mx1 ml top rel) cs =
                 concat_mapM (walk_sub ie id mx2 ml top rel) cs).
  { apply concat_mapM_ext. intros c Hc. destruct c as [|d ok' cs']; [reflexivity|].
    unfold walk_sub. destruct (id d); [reflexivity|]. apply IH; auto. }
  rewrite Hpf, Hsub. reflexivity.
Qed.

(** On a repository in which no file has an ignored extension and every
    file of known size is at most 100000 bytes, repoforge.py's
    [generate_prompt] with its defaults gives the same result, and
    performs the same I/O, as generator.py's. *)
Theorem generator_repoforge_agree : forall repo_dir root sys user,
  all_files plain_file root = true ->
  Repoforge.generate_prompt_defaults repo_dir (Some root) sys user =
  Generator.generate_prompt repo_dir (Some root) sys user.
Proof.
  intros repo_dir root sys user Hall.
  destruct root as [name size body|name ok cs]; [reflexivity|].
  change (Repoforge.generate_prompt_defaults repo_dir (Some (Dir name ok cs)) sys user) with
    (tell (EvIsDir []) ;;;
     directory_tree <- directory_tree Generator.ignored_dir (fun _ => true) repo_dir
                         (Dir name ok cs) ;;
     repo_summary <- walk Generator.ignored_ext Generator.ignored_dir
                       Repoforge.DEFAULT_MAX_FILE_SIZE_BYTES
                       Generator.MAX_SUMMARY_LINES repo_dir [] (Dir name ok cs) ;;
     ret (format_prompt_xml repo_summary directory_tree sys user)).
  change (Generator.generate_prompt repo_dir (Some (Dir name ok cs)) sys user) with
    (tell (EvIsDir []) ;;;
     directory_tree <- directory_tree Generator.ignored_dir
                         (fun entry => negb (Generator.ignored_ext (py_lower (splitext_ext entry))))
                         repo_dir (Dir name ok cs) ;;
     repo_summary <- walk Generator.ignored_ext Generator.ignored_dir
                       Generator.MAX_FILE_SIZE_BYTES
                       Generator.MAX_SUMMARY_LINES repo_dir [] (Dir name ok cs) ;;
     ret (format_prompt_xml repo_summary directory_tree sys user)).
  unfold directory_tree.
  rewrite (walk_directory_keep Generator.ignored_dir (fun _ => true)
             (fun entry => negb (Generator.ignored_ext (py_lower (splitext_ext entry))))).
  - rewrite (walk_mx Generator.ignored_ext Generator.ignored_dir
               Repoforge.DEFAULT_MAX_FILE_SIZE_BYTES Generator.MAX_FILE_SIZE_BYTES).
    + reflexivity.
    + revert Hall. apply all_files_impl. intros fname [s|] body; simpl; [|reflexivity].
      intros H. apply andb_prop in H as [_ H]. apply Z.leb_le in H.
      unfold Generator.MAX_FILE_SIZE_BYTES, Repoforge.DEFAULT_MAX_FILE_SIZE_BYTES in *.
      replace (10 ^ 20 <? s)%Z with false by (symmetry; apply Z.ltb_ge; lia).
      replace (100000 <? s)%Z with false by (symmetry; apply Z.ltb_ge; lia).
      reflexivity.
  - revert Hall. apply all_files_impl. intros fname size body; simpl.
    intros H. apply andb_prop in H as [H _]. rewrite H. reflexivity.
Qed.

Lemma generator_repoforge_agree_witness :
  all_files plain_file sample_repo = true /\
  Repoforge.generate_prompt_defaults "repo" (Some sample_repo) (Some "Be brief.") None =
  Generator.generate_prompt "repo" (Some sample_repo) (Some "Be brief.") None.
Proof.
  assert (H : all_files plain_file sample_repo = true) by reflexivity.
  split; [exact H|]. apply (generator_repoforge_agree "repo" sample_repo _ _ H).
Defined.

(** ** Connectors of the tree view *)

Lemma prefix_app_l : forall s t, String.prefix s (s ++ t) = true.
Proof.
  induction s as [|c s IH]; intros t; [destruct t; reflexivity|]. simpl.
  destruct (ascii_dec c c); [apply IH|contradiction].
Qed.

Lemma string_app_assoc : forall a b c : string, a ++ (b ++ c) = (a ++ b) ++ c.
Proof. induction a as [|x a IH]; intros b c; simpl; [reflexivity|]. rewrite IH. reflexivity. Qed.

Lemma string_app_nil_r : forall a : string, a ++ EmptyString = a.
Proof. induction a as [|x a IH]; simpl; [reflexivity|]. rewrite IH. reflexivity. Qed.

Lemma prefix_app_assoc : forall a b c, String.prefix (a ++ b) (a ++ (b ++ c)) = true.
Proof. intros a b c. rewrite string_app_assoc. apply prefix_app_l. Qed.

Lemma prefix_app_inv : forall a b x, String.prefix (a ++ b) x = true -> String.prefix a x = true.
Proof.
  induction a as [|c a IH]; intros b x H; [destruct x; reflexivity|].
  destruct x as [|c' x]; simpl in *; [discriminate|].
  destruct (ascii_dec c c'); [apply (IH b x H)|discriminate].
Qed.

Lemma render_prefix : forall keep path es pr lines l,
  (forall e, In e es -> item_is_dir e = true -> forall pr' lines' l',
     item_walk e pr' = (Ok lines', l') -> Forall (fun line => String.prefix pr' line = true) lines') ->
  render_entries keep path pr es = (Ok lines, l) ->
  Forall (fun line => String.prefix pr line = true) lines.
Proof.
  intros keep path es. induction es as [|e es IH]; intros pr lines l Hit H.
  - inversion H; subst. constructor.
  - cbn [render_entries] in H. apply bind_Ok in H as [u [l0 [l0' [_ [H _]]]]].
    apply bind_Ok in H as [here [l1 [l2 [Hh [H _]]]]].
    apply bind_Ok in H as [others [l3 [l4 [Ho [H _]]]]]. inversion H; subst.
    apply Forall_app. split; [|apply (IH pr others l3); [intros; eapply Hit; eauto; right; assumption|exact Ho]].
    destruct (item_is_dir e) eqn:Hd.
    + apply bind_Ok in Hh as [sub [l5 [l6 [Hs [Hh _]]]]]. inversion Hh; subst.
      constructor; [apply prefix_app_l|].
      eapply Forall_impl; [|apply (Hit e (or_introl eq_refl) Hd _ _ _ Hs)].
      intros line. apply prefix_app_inv.
    + destruct (keep (item_name e)); inversion Hh; subst; repeat constructor.
      apply prefix_app_l.
Qed.

Lemma walk_directory_prefix : forall ign keep top n path pr lines l,
  walk_directory ign keep top path n pr = (Ok lines, l) ->
  Forall (fun line => String.prefix pr line = true) lines.
Proof.
  intros ign keep top n. induction n as [name size body|name ok cs IH] using node_ind';
    intros path pr lines l H; [discriminate|].
  rewrite walk_directory_dir_unfold in H. apply bind_Ok in H as [u [l1 [l2 [_ [H _]]]]].
  destruct ok; simpl negb in H; [|discriminate].
  eapply render_prefix; [|exact H]. intros e He Hd pr' lines' l' Hw.
  destruct (tree_listing_In _ _ _ _ _ _ He) as [c [Hc [-> _]]].
  rewrite Forall_forall in IH. exact (IH c Hc _ _ _ _ Hw).
Qed.

Lemma render_entries_not_last : forall keep path pr x rest, rest <> [] ->
  render_entries keep path pr (x :: rest) =
  (tell (EvIsDir (path ++ [item_name x])%list) ;;;
   here <- (if item_is_dir x then
              sub <- item_walk x (pr ++ mid_indent) ;;
              ret ((pr ++ mid_connector ++ item_name x ++ "/") :: sub)
            else if keep (item_name x) then ret [pr ++ mid_connector ++ item_name x]
            else ret []) ;;
   others <- render_entries keep path pr rest ;;
   ret (here ++ others)%list).
Proof. intros keep path pr x [|y ys] H; [congruence|reflexivity]. Qed.

Lemma render_hidden_last : forall keep path es e pr lines l,
  (forall e', In e' es -> item_is_dir e' = true -> forall pr' lines' l',
     item_walk e' pr' = (Ok lines', l') -> Forall (fun line => String.prefix pr' line = true) lines') ->
  item_is_dir e = false -> keep (item_name e) = false ->
  render_entries keep path pr (es ++ [e])%list = (Ok lines, l) ->
  Forall (fun line => String.prefix (pr ++ mid_connector) line = true \/
                      String.prefix (pr ++ mid_indent) line = true) lines.
Proof.
  intros keep path es e pr. induction es as [|x es IH]; intros lines l Hit Hd Hk H.
  - simpl in H. rewrite Hd, Hk in H. inversion H; subst. constructor.
  - change (render_entries keep path pr (x :: (es ++ [e])%list) = (Ok lines, l)) in H.
    rewrite render_entries_not_last in H by (destruct es; discriminate).
    apply bind_Ok in H as [u [l0 [l0' [_ [H _]]]]].
    apply bind_Ok in H as [here [l1 [l2 [Hh [H _]]]]].
    apply bind_Ok in H as [others [l3 [l4 [Ho [H _]]]]]. inversion H; subst.
    apply Forall_app. split;
      [|apply (IH others l3); [intros; eapply Hit; eauto; right; assumption|exact Hd|exact Hk|exact Ho]].
    destruct (item_is_dir x) eqn:Hx.
    + apply bind_Ok in Hh as [sub [l5 [l6 [Hs [Hh _]]]]]. inversion Hh; subst.
      constructor; [left; exact (prefix_app_assoc pr mid_connector (item_name x ++ "/"))|].
      eapply Forall_impl; [|apply (Hit x (or_introl eq_refl) Hx _ _ _ Hs)].
      intros line Hl. right. exact Hl.
    + destruct (keep (item_name x)); inversion Hh; subst; [|constructor].
      constructor; [left; exact (prefix_app_assoc pr mid_connector (item_name x))|constructor].
Qed.

Lemma tree_listing_entries : forall ign keep top path cs,
  filter (fun e => negb (ign (item_name e)))
    (sort_by_name item_name (map (tree_item_of ign keep top path) cs)) =
  map (tree_item_of ign keep top path) (tree_entries ign cs).
Proof.
  intros ign keep top path cs. unfold tree_entries.
  rewrite <- (map_sort node_name item_name (tree_item_of ign keep top path)) by reflexivity.
  rewrite filter_map_comm. reflexivity.
Qed.

(** generator.py decides whether an entry is the last one before it skips
    files with an ignored extension.  So when the last entry of a listed
    directory, by name, is such a file, no line of that directory is drawn
    with the closing connector ["└── "]: every line starts, after the
    prefix, with ["├── "] or, for the contents of a subdirectory, with
    ["│   "]. *)
Theorem tree_hidden_last_entry : forall ign keep top path name cs prefix es fname size body
    lines l,
  tree_entries ign cs = (es ++ [File fname size body])%list ->
  keep fname = false ->
  walk_directory ign keep top path (Dir name true cs) prefix = (Ok lines, l) ->
  Forall (fun line => String.prefix (prefix ++ mid_connector) line = true \/
                      String.prefix (prefix ++ mid_indent) line = true) lines.
Proof.
  intros ign keep top path name cs prefix es fname size body lines l Hes Hk H.
  rewrite walk_directory_dir_unfold in H. apply bind_Ok in H as [u [l1 [l2 [_ [H _]]]]].
  simpl negb in H. rewrite tree_listing_entries, Hes, map_app in H.
  apply (render_hidden_last keep path (map (tree_item_of ign keep top path) es)
           (tree_item_of ign keep top path (File fname size body)) prefix lines l2);
    [|reflexivity|exact Hk|exact H].
  intros e He Hd pr' lines' l' Hw. apply in_map_iff in He as [c [<- _]].
  exact (walk_directory_prefix _ _ _ _ _ _ _ _ Hw).
Qed.

Lemma tree_hidden_last_entry_witness :
  exists lines l,
    walk_directory Generator.ignored_dir
      (fun entry => negb (Generator.ignored_ext (py_lower (splitext_ext entry))))
      "repo" [] trailing_image_repo "" = (Ok lines, l) /\
    Forall (fun line => String.prefix ("" ++ mid_connector) line = true \/
                        String.prefix ("" ++ mid_indent) line = true) lines.
Proof.
  eexists; eexists; split; [reflexivity|].
  eapply (tree_hidden_last_entry Generator.ignored_dir
            (fun entry => negb (Generator.ignored_ext (py_lower (splitext_ext entry))))
            "repo" [] "repo"
            [text_file "z.png" "PNG"; Dir "docs" true [text_file "README" "hi"];
             text_file "a.txt" "hi"]
            "" [text_file "a.txt" "hi"; Dir "docs" true [text_file "README" "hi"]]
            "z.png" (Some 3%Z) (Contents "PNG" None)).
  - reflexivity.
  - reflexivity.
  - reflexivity.
Defined.

(** ** Blank messages *)

Lemma lstrip_ws_utf8_space : forall cp r, In cp PY_WHITESPACE ->
  lstrip_ws (utf8_encode cp ++ r) = lstrip_ws r.
Proof.
  intros cp r H. unfold PY_WHITESPACE in H.
  repeat (destruct H as [<-|H]; [reflexivity|]). destruct H.
Qed.

Lemma lstrip_ws_blank : forall cps, Forall (fun cp => In cp PY_WHITESPACE) cps ->
  lstrip_ws (utf8_of cps) = EmptyString.
Proof.
  induction cps as [|cp cps IH]; intros H; [reflexivity|].
  inversion H as [|? ? Hcp Hcps]; subst. simpl.
  rewrite lstrip_ws_utf8_space by exact Hcp. apply IH, Hcps.
Qed.

Lemma utf8_of_cons : forall cp cps, utf8_of (cp :: cps) <> EmptyString.
Proof.
  intros cp cps. simpl. unfold utf8_encode.
  destruct (cp <? 128)%Z; [|destruct (cp <? 2048)%Z]; discriminate.
Qed.

(** A message made only of whitespace characters (any of those for which
    [str.isspace] holds, such as U+00A0 or U+3000, not only ASCII ones) is
    truthy, so it is stripped rather than replaced by the fallback text:
    its section in the prompt is an empty line, not ["No system message
    provided."] (or ["No user instructions provided."]). *)
Theorem blank_message_empty_section : forall cps,
  cps <> [] -> Forall (fun cp => In cp PY_WHITESPACE) cps ->
  system_part (Some (utf8_of cps)) = EmptyString /\
  user_part (Some (utf8_of cps)) = EmptyString.
Proof.
  intros cps Hne Hblank. unfold system_part, user_part, py_truthy, arg_or, py_strip.
  destruct cps as [|cp cps']; [contradiction|].
  destruct (String.eqb_spec (utf8_of (cp :: cps')) EmptyString) as [E|_];
    [exfalso; exact (utf8_of_cons cp cps' E)|]. simpl negb. cbv iota.
  rewrite lstrip_ws_blank by exact Hblank. split; reflexivity.
Qed.

Lemma blank_message_empty_section_witness :
  [160; 12288]%Z <> [] /\
  Forall (fun cp => In cp PY_WHITESPACE) [160; 12288]%Z /\
  system_part (Some (utf8_of [160; 12288]%Z)) = EmptyString /\
  user_part (Some (utf8_of [160; 12288]%Z)) = EmptyString.
Proof.
  assert (Hne : [160; 12288]%Z <> []) by discriminate.
  assert (Hw : Forall (fun cp => In cp PY_WHITESPACE) [160; 12288]%Z)
    by (repeat constructor; simpl; tauto).
  split; [exact Hne|split; [exact Hw|]].
  exact (blank_message_empty_section [160; 12288]%Z Hne Hw).
Defined.

(** ** The name at the top of the tree *)

Lemma strip_trailing_slashes_app : forall x y,
  strip_trailing_slashes (x ++ y) =
  if String.eqb (strip_trailing_slashes y) EmptyString then strip_trailing_slashes x
  else x ++ strip_trailing_slashes y.
Proof.
  induction x as [|c x IH]; intros y; simpl.
  - destruct (String.eqb_spec (strip_trailing_slashes y) EmptyString) as [E|E];
      [exact E|reflexivity].
  - rewrite IH. destruct (String.eqb_spec (strip_trailing_slashes y) EmptyString) as [E|E];
      [reflexivity|].
    replace (String.eqb (x ++ strip_trailing_slashes y) EmptyString) with false.
    + rewrite andb_false_r. reflexivity.
    + symmetry. apply String.eqb_neq. intros H. apply E.
      destruct x; [exact H|discriminate].
Qed.

Lemma concat_slashes_S : forall k,
  String.concat "" (repeat "/" (S k)) = "/" ++ String.concat "" (repeat "/" k).
Proof. intros [|k]; reflexivity. Qed.

Lemma strip_trailing_slashes_slashes : forall k,
  strip_trailing_slashes (String.concat "" (repeat "/" k)) = EmptyString.
Proof.
  induction k as [|k IH]; [reflexivity|].
  rewrite concat_slashes_S, strip_trailing_slashes_app, IH. reflexivity.
Qed.

Lemma strip_trailing_slashes_no_slash : forall s,
  no_char "/" s = true -> strip_trailing_slashes s = s.
Proof.
  induction s as [|c s IH]; simpl; [reflexivity|].
  intros H. apply andb_prop in H as [Hc Hs]. rewrite IH by exact Hs.
  destruct (Ascii.eqb c "/"); [discriminate|reflexivity].
Qed.

Lemma basename_aux_app : forall x y acc,
  basename_aux (x ++ y) acc = basename_aux y (basename_aux x acc).
Proof.
  induction x as [|c x IH]; intros y acc; simpl; [reflexivity|].
  destruct (Ascii.eqb c "/"); apply IH.
Qed.

Lemma basename_aux_no_slash : forall s acc,
  no_char "/" s = true -> basename_aux s acc = acc ++ s.
Proof.
  induction s as [|c s IH]; intros acc H; simpl; [symmetry; apply string_app_nil_r|].
  apply andb_prop in H as [Hc Hs]. destruct (Ascii.eqb c "/"); [discriminate|].
  rewrite IH by exact Hs. rewrite <- string_app_assoc. reflexivity.
Qed.

(** The first line of the tree is [os.path.basename(os.path.normpath(root_dir))]
    followed by ["/"]: the last component of [root_dir] (a name other than
    ["."] and [".."], which [normpath] would resolve), whatever directory
    precedes it and however many slashes end it.  A [root_dir] made only of
    slashes has an empty base name and is used as it is. *)
Theorem root_basename_last_component : forall name k,
  name <> EmptyString -> name <> "." -> name <> ".." -> no_char "/" name = true ->
  (forall dir,
     root_basename (dir ++ "/" ++ name ++ String.concat "" (repeat "/" k)) = name) /\
  root_basename (name ++ String.concat "" (repeat "/" k)) = name /\
  root_basename (String.concat "" (repeat "/" (S k))) = String.concat "" (repeat "/" (S k)).
Proof.
  intros name k Hne _ _ Hns.
  assert (Hname : String.eqb name EmptyString = false) by (apply String.eqb_neq, Hne).
  assert (Hstrip : strip_trailing_slashes name = name)
    by (apply strip_trailing_slashes_no_slash, Hns).
  split; [|split].
  - intros dir. unfold root_basename.
    rewrite string_app_assoc, string_app_assoc, strip_trailing_slashes_app,
      strip_trailing_slashes_slashes. simpl String.eqb. cbv iota.
    rewrite strip_trailing_slashes_app, Hstrip, Hname. cbv iota.
    rewrite basename_aux_app, basename_aux_app.
    change (basename_aux "/" (basename_aux dir EmptyString)) with EmptyString.
    rewrite basename_aux_no_slash by exact Hns. simpl. rewrite Hname. reflexivity.
  - unfold root_basename. rewrite strip_trailing_slashes_app, strip_trailing_slashes_slashes.
    simpl String.eqb. cbv iota. rewrite Hstrip, basename_aux_no_slash by exact Hns.
    simpl. rewrite Hname. reflexivity.
  - unfold root_basename. rewrite strip_trailing_slashes_slashes. reflexivity.
Qed.

Lemma root_basename_last_component_witness :
  root_basename ("/home/me" ++ "/" ++ "proj" ++ String.concat "" (repeat "/" 2)) = "proj" /\
  root_basename ("proj" ++ String.concat "" (repeat "/" 2)) = "proj" /\
  root_basename (String.concat "" (repeat "/" 3)) = String.concat "" (repeat "/" 3).
Proof.
  destruct (root_basename_last_component "proj" 2) as [H1 [H2 H3]];
    [discriminate|discriminate|discriminate|reflexivity|].
  split; [apply H1|split; [exact H2|exact H3]].
Defined.

(** ** Which exceptions escape a run *)
















